(** * helpers.py: string clean-up, interaction terms, display names, export

    A shallow embedding of [src/helpers.py] and the properties of its
    functions.

    Python values are modelled as follows.
    - [str]: Stdlib [string].  Its 8-bit characters are read as the code
      points U+0000..U+00FF (Latin-1); on that range [str.lower] and the
      regular-expression class [\w] are closed, and their tables are the ones
      of the Unicode character database.  For the statement that holds of
      every string, module [Unicode] has strings as lists of code points,
      with the tables of the runtime as parameters.
    - [list]: [list].
    - [set]: stdpp's [gset string].
    - the input [dict] whose key order the code observes: an association list
      in insertion order; the [dict] that is only written and returned: stdpp's
      [gmap string string].
    - a raising call: a value of [result], [Raise e] or [Return v]. *)

From Stdlib Require Import Ascii NArith ZArith Lia.
From stdpp Require Import gmap strings list sets sorting pretty.

(** ** Characters *)

Module Char.

Local Open Scope N_scope.

Definition code (c : ascii) : N := N_of_ascii c.

Definition between (lo hi : N) (c : ascii) : bool :=
  (lo <=? code c) && (code c <=? hi).

Definition is_ascii (c : ascii) : bool := code c <? 128.

(** Code points with an upper-case to lower-case mapping: A-Z, and the
    Latin-1 capitals U+00C0..U+00D6 and U+00D8..U+00DE. *)
Definition is_upper (c : ascii) : bool :=
  between 65 90 c || between 192 214 c || between 216 222 c.

(** [str.lower] on one character. *)
Definition lower (c : ascii) : ascii :=
  if is_upper c then ascii_of_N (code c + 32) else c.

(** [str.isalnum] on one character: letters, decimal digits, and the
    characters with a numeric value (superscripts and vulgar fractions). *)
Definition isalnum (c : ascii) : bool :=
  between 48 57 c || between 65 90 c || between 97 122 c
  || (code c =? 170) || between 178 179 c || (code c =? 181)
  || between 185 186 c || between 188 190 c
  || between 192 214 c || between 216 246 c || between 248 255 c.

(** The regular-expression class [\w]. *)
Definition is_word (c : ascii) : bool := isalnum c || Ascii.eqb c "_".

(** The regular-expression class [\W]. *)
Definition is_nonword (c : ascii) : bool := negb (is_word c).

Definition is_underscore (c : ascii) : bool := Ascii.eqb c "_".

(** The class [[a-z0-9_]]. *)
Definition is_lower_digit_underscore (c : ascii) : bool :=
  between 97 122 c || between 48 57 c || Ascii.eqb c "_".

End Char.

(** ** Strings *)

Module Str.

Fixpoint all_chars (p : ascii -> bool) (s : string) : bool :=
  match s with
  | EmptyString => true
  | String c s' => p c && all_chars p s'
  end.

(** [s.lower()] *)
Fixpoint lower (s : string) : string :=
  match s with
  | EmptyString => EmptyString
  | String c s' => String (Char.lower c) (lower s')
  end.

(** [s.replace(old, new)] for a one-character [old]. *)
Fixpoint replace (old : ascii) (new : string) (s : string) : string :=
  match s with
  | EmptyString => EmptyString
  | String c s' =>
      if Ascii.eqb c old then new +:+ replace old new s'
      else String c (replace old new s')
  end.

(** [re.sub(cls+, repl, s)] for a character class [cls]: every maximal run
    of characters of the class is replaced by [repl].  [in_run] tells that
    the character before belongs to a run already replaced. *)
Fixpoint re_sub_run (cls : ascii -> bool) (repl : string) (in_run : bool)
    (s : string) : string :=
  match s with
  | EmptyString => EmptyString
  | String c s' =>
      if cls c then
        if in_run then re_sub_run cls repl true s'
        else repl +:+ re_sub_run cls repl true s'
      else String c (re_sub_run cls repl false s')
  end.

Definition re_sub_plus (cls : ascii -> bool) (repl s : string) : string :=
  re_sub_run cls repl false s.

(** Two underscores in a row somewhere in [s]. *)
Fixpoint repeated_underscore (s : string) : bool :=
  match s with
  | String c1 ((String c2 _) as s') =>
      (Char.is_underscore c1 && Char.is_underscore c2) || repeated_underscore s'
  | _ => false
  end.

(** The string does not begin with an underscore. *)
Definition no_leading_underscore (s : string) : bool :=
  match s with
  | String c _ => negb (Char.is_underscore c)
  | EmptyString => true
  end.

(** [sep.join(l)] *)
Fixpoint join (sep : string) (l : list string) : string :=
  match l with
  | [] => ""
  | [x] => x
  | x :: l' => x +:+ sep +:+ join sep l'
  end.

(** [s.split(sep)] for a one-character [sep]: the fields between the
    separators, of which there is always at least one. *)
Fixpoint split (sep : ascii) (s : string) : list string :=
  match s with
  | EmptyString => [""]
  | String c s' =>
      if Ascii.eqb c sep then "" :: split sep s'
      else match split sep s' with
           | field :: fields => String c field :: fields
           | [] => [String c ""]
           end
  end.

End Str.


(** ** Calls that may raise *)

(** The message of a failed [assert] of [generate_covariate_latexdict], by
    the values its f-string interpolates. *)
Inductive assertion : Type :=
| Missing_interactions (cov_name : string) (missing : gset string)
| Variable_order (cov_name current correct : string).

Inductive exn : Type :=
| IndexError
| AttributeError (attribute : string)
| AssertionError (message : assertion).

Inductive result (A : Type) : Type :=
| Return (a : A)
| Raise (e : exn).
Arguments Return {A} a.
Arguments Raise {A} e.

#[global] Instance result_ret : MRet result := @Return.
#[global] Instance result_bind : MBind result := fun A B f m =>
  match m with
  | Return a => f a
  | Raise e => Raise e
  end.

(** A [for] loop whose body may raise: the first exception ends it. *)
Fixpoint for_each {A S : Type} (body : S -> A -> result S) (l : list A) (s : S)
    : result S :=
  match l with
  | [] => Return s
  | x :: l' => s' ← body s x; for_each body l' s'
  end.

(** A call on a mutable object: the object after the call, and what the call
    returned or raised.  What was written before an exception stays written. *)
Definition action (S A : Type) : Type := S -> S * result A.

Definition pure {S A : Type} (a : A) : action S A := fun s => (s, Return a).
Definition current {S : Type} : action S S := fun s => (s, Return s).
Definition throw {S A : Type} (e : exn) : action S A := fun s => (s, Raise e).
Definition modify {S : Type} (f : S -> S) : action S () := fun s => (f s, Return ()).
#[global] Instance action_bind {S : Type} : MBind (action S) := fun A B f m s =>
  match m s with
  | (s', Return a) => f a s'
  | (s', Raise e) => (s', Raise e)
  end.

Fixpoint for_loop {A S : Type} (body : A -> action S ()) (l : list A)
    : action S () :=
  match l with
  | [] => pure ()
  | x :: l' => _ ← body x; for_loop body l'
  end.

(** ** [Capitalize] *)

Section Capitalize.

(** The method [str.capitalize] of the Python runtime. *)
Variable capitalize : string -> string.

Definition Capitalize (s : string) : result string :=
  match s with
  | EmptyString => Raise IndexError
  | String c rest => Return (capitalize (String c "") +:+ rest)
  end.

End Capitalize.

(** [str.capitalize] on strings of ASCII characters: the first character in
    upper case, the others in lower case. *)
Definition ascii_capitalize (s : string) : string :=
  match s with
  | EmptyString => EmptyString
  | String c rest =>
      String (if Char.between 97 122 c then ascii_of_N (Char.code c - 32)%N else c)
             (Str.lower rest)
  end.

(** ** [clean_filename] *)

Definition clean_filename (filename : string) : string :=
  let filename := Str.replace " " "_" (Str.lower filename) in
  let filename := Str.replace "/" "_over_" filename in
  let filename := Str.re_sub_plus Char.is_nonword "" filename in
  let filename := Str.re_sub_plus Char.is_underscore "_" filename in
  filename.


(** ** [generate_lower_order_interactions] *)

(** [vars[:i] + vars[(i+1):]] *)
Definition omit (i : nat) (vars : list string) : list string :=
  take i vars ++ drop (S i) vars.

(** One round of the loop over [i]; [recurse] is the recursive call. *)
Definition lower_order_step (recurse : list string -> list string)
    (vars_in_interaction : list string)
    (lower_order_interactions : list string) (i : nat) : list string :=
  let lower_order := omit i vars_in_interaction in
  let lower_order_interactions :=
    if bool_decide (lower_order ≠ []) then
      lower_order_interactions ++ [Str.join ":" lower_order]
    else lower_order_interactions in
  if bool_decide (1 < length lower_order)%nat then
    lower_order_interactions ++ recurse lower_order
  else lower_order_interactions.

(** What the round for [i] appends to the list. *)
Definition lower_order_terms (recurse : list string -> list string)
    (vars_in_interaction : list string) (i : nat) : list string :=
  let lower_order := omit i vars_in_interaction in
  (if bool_decide (lower_order ≠ []) then [Str.join ":" lower_order] else [])
  ++ (if bool_decide (1 < length lower_order)%nat then recurse lower_order else []).

(** The recursive calls are on lists one element shorter: [depth] bounds
    their nesting. *)
Fixpoint lower_order_upto (depth : nat) (vars_in_interaction : list string)
    : list string :=
  match depth with
  | O => []
  | S depth =>
      fold_left (lower_order_step (lower_order_upto depth) vars_in_interaction)
                (seq 0 (length vars_in_interaction)) []
  end.

Definition generate_lower_order_interactions (vars_in_interaction : list string)
    : list string :=
  lower_order_upto (length vars_in_interaction) vars_in_interaction.

(** ** [generate_covariate_latexdict] *)

(** A [dict] in insertion order. *)
Definition dict : Type := list (string * string).

Definition keys (d : dict) : list string := d.*1.

(** [d.get(key, default)] *)
Fixpoint get (d : dict) (key default : string) : string :=
  match d with
  | [] => default
  | (k, v) :: d' => if bool_decide (k = key) then v else get d' key default
  end.

(** [l.index(x)], where [x] is in [l] *)
Fixpoint index (x : string) (l : list string) : option nat :=
  match l with
  | [] => None
  | y :: l' => if bool_decide (y = x) then Some 0 else S <$> index x l'
  end.

(** The values of the sort key: an [int], or [np.inf]. *)
Inductive sort_key : Type :=
| Finite (z : Z)
| Infinity.

#[global] Instance sort_key_eq_dec : EqDecision sort_key.
Proof. solve_decision. Defined.

Definition key_le (a b : sort_key) : bool :=
  match a, b with
  | Finite x, Finite y => (x <=? y)%Z
  | _, Infinity => true
  | Infinity, Finite _ => false
  end.

(** [-list(latexdict.keys()).index(var) if var in latexdict.keys() else np.inf] *)
Definition order_key (latexdict : dict) (var : string) : sort_key :=
  match index var (keys latexdict) with
  | Some i => Finite (- Z.of_nat i)
  | None => Infinity
  end.

(** The order that [sorted] puts the elements in. *)
Definition key_ordered (key : string -> sort_key) (x y : string) : Prop :=
  key_le (key x) (key y) = true.

(** [sorted(l, key=key)]: the stable sort, here by insertion from the right. *)
Fixpoint insert_by (key : string -> sort_key) (x : string) (l : list string)
    : list string :=
  match l with
  | [] => [x]
  | y :: l' =>
      if key_le (key x) (key y) then x :: y :: l' else y :: insert_by key x l'
  end.

Definition sorted (key : string -> sort_key) (l : list string) : list string :=
  foldr (insert_by key) [] l.

(** The two assertions on an interaction term. *)
Definition validate (latexdict : dict) (cov_names : list string)
    (cov_name : string) (vars_in_interaction : list string) : result () :=
  if bool_decide (1 < length vars_in_interaction)%nat then
    let lower_order_interactions :=
      generate_lower_order_interactions vars_in_interaction in
    if bool_decide
         (list_to_set lower_order_interactions ⊆@{gset string} list_to_set cov_names)
    then
      let correct_order_vars := sorted (order_key latexdict) vars_in_interaction in
      if bool_decide (vars_in_interaction = correct_order_vars) then Return ()
      else Raise (AssertionError
                    (Variable_order cov_name
                       (Str.join ":" vars_in_interaction)
                       (Str.join ":" correct_order_vars)))
    else Raise (AssertionError
                  (Missing_interactions cov_name
                     (list_to_set lower_order_interactions ∖ list_to_set cov_names)))
  else Return ().

(** The body of the loop over [cov_names]. *)
Definition covariate_step (latexdict : dict) (cov_names : list string)
    (cov_latexdict : gmap string string) (cov_name : string)
    : result (gmap string string) :=
  let vars_in_interaction := Str.split ":" cov_name in
  _ ← validate latexdict cov_names cov_name vars_in_interaction;
  let clean_vars_in_interaction :=
    (fun var => get latexdict var var) <$> vars_in_interaction in
  let clean_cov_name := Str.join " $\times$ " clean_vars_in_interaction in
  Return (<[cov_name := clean_cov_name]> cov_latexdict).

Definition generate_covariate_latexdict (latexdict : dict) (cov_names : list string)
    : result (gmap string string) :=
  for_each (covariate_step latexdict cov_names) cov_names ∅.

(** ** [savereg]: the pseudo-R2 block *)

(** The footnote of [savereg]. *)
Definition pseudo_r2_note : string := "$R^2$ reports McFadden's pseudo-$R^2$.".

Section Savereg.

(** The type of the statistics of a model. *)
Context {V : Type}.

(** A fitted model: its attribute [prsquasecond], when it has one. *)
Record fitted_model : Type := { prsquasecond : option V }.

(** The fields of the table object that the block reads and writes. *)
Record Stargazer : Type := {
  models : list fitted_model;
  model_data : list (gmap string V);
  custom_notes : list string
}.

(** [hasattr(model, 'prsquasecond')] *)
Definition hasattr_prsquasecond (model : fitted_model) : bool :=
  bool_decide (is_Some (prsquasecond model)).

(** [model.prsquasecond] *)
Definition getattr_prsquasecond (model : fitted_model) : action Stargazer V :=
  match prsquasecond model with
  | Some v => pure v
  | None => throw (AttributeError "prsquasecond")
  end.

(** [model_data['r2'] = v], on the [i]-th dictionary of the table. *)
Definition set_r2 (i : nat) (v : V) : action Stargazer () :=
  modify (fun sg =>
    {| models := models sg;
       model_data := alter (fun d => <["r2" := v]> d) i (model_data sg);
       custom_notes := custom_notes sg |}).

(** [Stargazer.add_custom_notes(notes)] of the stargazer package: the notes
    of the table become [notes]. *)
Definition add_custom_notes (notes : list string) : action Stargazer () :=
  modify (fun sg =>
    {| models := models sg;
       model_data := model_data sg;
       custom_notes := notes |}).

(** The body of the loop over [zip(stargazer.models, stargazer.model_data)]. *)
Definition pseudo_r2_step (entry : nat * fitted_model) : action Stargazer () :=
  let '(i, model) := entry in
  v ← getattr_prsquasecond model;
  _ ← set_r2 i v;
  stargazer ← current;
  if bool_decide (pseudo_r2_note ∉ custom_notes stargazer) then
    add_custom_notes (custom_notes stargazer ++ [pseudo_r2_note])
  else pure ().

(** Lines 148 to 152 of [savereg]. *)
Definition savereg_pseudo_r2 : action Stargazer () :=
  stargazer ← current;
  if existsb hasattr_prsquasecond (models stargazer) then
    for_loop pseudo_r2_step
      (zip (seq 0 (length (model_data stargazer))) (models stargazer))
  else pure ().

(** The notes once the footnote is among them. *)
Definition with_note (notes : list string) : list string :=
  if bool_decide (pseudo_r2_note ∉ notes) then notes ++ [pseudo_r2_note]
  else notes.

End Savereg.

Arguments fitted_model : clear implicits.
Arguments Stargazer : clear implicits.

(** Two tables of two models: in the first both models have a pseudo-R2, in
    the second only the first model has one. *)
Definition table_all : Stargazer nat :=
  {| models := [ {| prsquasecond := Some 3 |}; {| prsquasecond := Some 5 |} ];
     model_data := [∅; ∅];
     custom_notes := [] |}.

Definition table_mixed : Stargazer nat :=
  {| models := [ {| prsquasecond := Some 3 |}; {| prsquasecond := None |} ];
     model_data := [∅; ∅];
     custom_notes := [] |}.

(** ** [savefig] *)

(** A text object of the figure. *)
Definition artist : Type := nat.

(** The axes object, by the attributes [savefig] looks at. *)
Record Axes : Type := {
  title : option artist;
  suptitle : option artist
}.

(** The current figure of [matplotlib.pyplot], the files written from it
    (with what was visible when each was written), and the console. *)
Record pyplot : Type := {
  visible : gmap artist bool;
  saved : list (string * gmap artist bool);
  shown : bool;
  printed : list string
}.

(** [ax.title] *)
Definition getattr_title (ax : Axes) : action pyplot artist :=
  match title ax with
  | Some t => pure t
  | None => throw (AttributeError "title")
  end.

(** [plt.setp(a, visible=b)] *)
Definition setp_visible (a : artist) (b : bool) : action pyplot () :=
  modify (fun plt =>
    {| visible := <[a := b]> (visible plt); saved := saved plt;
       shown := shown plt; printed := printed plt |}).

(** [plt.savefig(path, ...)] *)
Definition plt_savefig (path : string) : action pyplot () :=
  modify (fun plt =>
    {| visible := visible plt; saved := saved plt ++ [(path, visible plt)];
       shown := shown plt; printed := printed plt |}).

(** [plt.show()] *)
Definition plt_show : action pyplot () :=
  modify (fun plt =>
    {| visible := visible plt; saved := saved plt;
       shown := true; printed := printed plt |}).

(** [print(line)] *)
Definition print (line : string) : action pyplot () :=
  modify (fun plt =>
    {| visible := visible plt; saved := saved plt;
       shown := shown plt; printed := printed plt ++ [line] |}).

Definition savefig (ax : Axes) (filename figurepath : string) : action pyplot () :=
  let filename := clean_filename filename in
  _ ← (if bool_decide (is_Some (title ax)) then
         t ← getattr_title ax;
         _ ← setp_visible t false;
         _ ← plt_savefig (figurepath +:+ filename +:+ "_notitle.pdf");
         t ← getattr_title ax;
         setp_visible t true
       else if bool_decide (is_Some (suptitle ax)) then
         t ← getattr_title ax;
         _ ← setp_visible t false;
         _ ← plt_savefig (figurepath +:+ filename +:+ "_notitle.pdf");
         t ← getattr_title ax;
         setp_visible t true
       else pure ());
  _ ← plt_savefig (figurepath +:+ filename +:+ ".pdf");
  _ ← plt_savefig (figurepath +:+ filename +:+ ".png");
  _ ← plt_show;
  print ("Saved to: " +:+ figurepath +:+ filename +:+ ".pdf").

(** ** [clean_filename] on strings of any code points *)

(** Strings as lists of code points, with the tables of the Python runtime
    as parameters: the lower-case mapping of a code point (one code point
    or several), the context rule of the capital sigma, and the
    alphanumeric code points. *)
Module Unicode.

Definition capital_sigma : N := 931.
Definition small_sigma : N := 963.
Definition final_small_sigma : N := 962.
Definition underscore : N := 95.
Definition space : N := 32.
Definition slash : N := 47.

(** The code points of a string of the other model. *)
Definition of_string (s : string) : list N :=
  N_of_ascii <$> String.list_ascii_of_string s.

(** The lower-case mapping and the alphanumeric code points below 128. *)
Definition ascii_lower (c : N) : N :=
  if (65 <=? c)%N && (c <=? 90)%N then (c + 32)%N else c.

Definition ascii_isalnum (c : N) : bool :=
  ((48 <=? c)%N && (c <=? 57)%N) || ((65 <=? c)%N && (c <=? 90)%N)
  || ((97 <=? c)%N && (c <=? 122)%N).

Section Runtime.

(** The full lower-case mapping of a code point. *)
Variable to_lower_full : N -> list N.

(** Whether the capital sigma at position [i] of [s] ends a word. *)
Variable final_sigma : list N -> nat -> bool.

(** [str.isalnum] on one code point. *)
Variable isalnum : N -> bool.

(** What [str.lower] puts for the code point [c] at position [i] of [s]. *)
Definition lower_at (s : list N) (i : nat) (c : N) : list N :=
  if (c =? capital_sigma)%N then
    [if final_sigma s i then final_small_sigma else small_sigma]
  else to_lower_full c.

(** [s.lower()] *)
Definition lower (s : list N) : list N := mjoin (imap (lower_at s) s).

(** The class [\w], and the two classes of [clean_filename]. *)
Definition is_word (c : N) : bool := isalnum c || (c =? underscore)%N.
Definition is_nonword (c : N) : bool := negb (is_word c).
Definition is_underscore (c : N) : bool := (c =? underscore)%N.

(** [s.replace(old, new)] for a one-character [old]. *)
Definition replace (old : N) (new s : list N) : list N :=
  s ≫= (fun c => if (c =? old)%N then new else [c]).

(** [re.sub(cls+, repl, s)], as [Str.re_sub_run]. *)
Fixpoint re_sub_run (cls : N -> bool) (repl : list N) (in_run : bool)
    (s : list N) : list N :=
  match s with
  | [] => []
  | c :: s' =>
      if cls c then
        if in_run then re_sub_run cls repl true s'
        else repl ++ re_sub_run cls repl true s'
      else c :: re_sub_run cls repl false s'
  end.

Definition re_sub_plus (cls : N -> bool) (repl s : list N) : list N :=
  re_sub_run cls repl false s.

Definition clean_filename (filename : list N) : list N :=
  let filename := replace space (of_string "_") (lower filename) in
  let filename := replace slash (of_string "_over_") filename in
  let filename := re_sub_plus is_nonword [] filename in
  let filename := re_sub_plus is_underscore (of_string "_") filename in
  filename.

(** A code point that [str.lower] leaves alone, wherever it stands. *)
Definition stable (c : N) : Prop :=
  c ≠ capital_sigma /\ to_lower_full c = [c].

(** What the statements take of the tables: a code point of a lower-case
    mapping is not the capital sigma and is its own lower-case mapping, so
    are the two small sigmas, and below 128 the tables are the ASCII ones. *)
Definition lower_stable : Prop :=
  forall c d, d ∈ to_lower_full c -> d ≠ capital_sigma /\ to_lower_full d = [d].

Definition sigmas_lower : Prop :=
  to_lower_full small_sigma = [small_sigma]
  /\ to_lower_full final_small_sigma = [final_small_sigma].

Definition ascii_tables : Prop :=
  forall c, (c < 128)%N ->
    to_lower_full c = [ascii_lower c] /\ isalnum c = ascii_isalnum c.

End Runtime.

(** Tables for the examples: the ASCII ones, with the capital sigma mapped
    to the small one and every other code point left as it is. *)
Definition to_lower_example (c : N) : list N :=
  if (c =? capital_sigma)%N then [small_sigma] else [ascii_lower c].

Definition final_sigma_example (s : list N) (i : nat) : bool :=
  bool_decide (i + 1 = length s).

End Unicode.

(** ** [savereg]: the tabular part of the rendered table *)

Module Text.

(** [s.startswith(prefix)] *)
Fixpoint startswith (prefix s : string) : bool :=
  match prefix, s with
  | EmptyString, _ => true
  | String a prefix', String b s' => Ascii.eqb a b && startswith prefix' s'
  | String _ _, EmptyString => false
  end.

(** [s[n:]] *)
Fixpoint drop (n : nat) (s : string) : string :=
  match n, s with
  | O, _ => s
  | S n', String _ s' => drop n' s'
  | S _, EmptyString => EmptyString
  end.

(** The text before and the text after the first occurrence of [sep], a
    separator that is not empty. *)
Fixpoint split_first (sep s : string) : option (string * string) :=
  if startswith sep s then Some (EmptyString, drop (String.length sep) s)
  else match s with
       | EmptyString => None
       | String c s' =>
           match split_first sep s' with
           | Some (before, after) => Some (String c before, after)
           | None => None
           end
       end.

(** [s.partition(sep)] *)
Definition partition (sep s : string) : string * string * string :=
  match split_first sep s with
  | Some (before, after) => (before, sep, after)
  | None => (s, EmptyString, EmptyString)
  end.

(** [s.replace(old, new)] for an [old] that is not empty: the occurrences
    of [old] are replaced from the left, each one sought from the end of the
    one before.  A step removes a character at least: [steps] bounds their
    number. *)
Fixpoint replace_upto (steps : nat) (old new s : string) : string :=
  match steps with
  | O => s
  | S steps =>
      if startswith old s then
        new +:+ replace_upto steps old new (drop (String.length old) s)
      else match s with
           | EmptyString => EmptyString
           | String c s' => String c (replace_upto steps old new s')
           end
  end.

Definition replace (old new s : string) : string :=
  replace_upto (S (String.length s)) old new s.

(** [sep] occurs in [s] after [before], followed by [after], and nowhere
    earlier. *)
Definition first_split (sep s before after : string) : Prop :=
  s = before +:+ sep +:+ after
  /\ forall before' after',
       s = before' +:+ sep +:+ after' ->
       String.length before <= String.length before'.

(** [sep in s] *)
Definition occurs (sep s : string) : Prop :=
  exists before after, s = before +:+ sep +:+ after.

End Text.

Definition begin_tabular : string := "\begin{tabular}".
Definition end_tabular : string := "\end{tabular}".

(** Lines 169 and 170 of [savereg]. *)
Definition tabular_part (latex : string) : string :=
  let latex_table :=
    (Text.partition begin_tabular latex).1.2 +:+ (Text.partition begin_tabular latex).2 in
  let latex_table :=
    (Text.partition end_tabular latex_table).1.1 +:+ (Text.partition end_tabular latex_table).1.2 in
  latex_table.

(** ** [savereg]: the whole function *)

(** [str(n)] for a number that is not negative. *)
Definition str (n : nat) : string := pretty n.

(** The rule that line 157 looks for, and the one it puts instead. *)
Definition cline_old (num_models : nat) : string :=
  "\cline{" +:+ str num_models +:+ "-" +:+ str (num_models + 1) +:+ "}".

Definition cline_new (num_models : nat) : string :=
  "\cline{2-" +:+ str (num_models + 1) +:+ "}".

(** Lines 156 to 160. *)
Definition postprocess (num_models : nat) (adjustwidth : bool) (latex : string)
    : string :=
  let latex := Text.replace "nan" "" latex in
  let latex := Text.replace (cline_old num_models) (cline_new num_models) latex in
  if adjustwidth then
    let latex :=
      Text.replace "\begin{tabular}"
        "\begin{adjustbox}{width=\linewidth}\begin{tabular}" latex in
    let latex := Text.replace "\end{tabular}" "\end{tabular}\end{adjustbox}" latex in
    latex
  else latex.

(** The argument [adjustwidth]: ['auto'] or a boolean. *)
Inductive width_policy : Type :=
| auto
| explicit (adjust : bool).

Section SaveregWhole.

Context {V : Type}.

(** The table object: the fields of the pseudo-R2 block, and the other
    attributes that [savereg] reads or sets, directly or through the
    methods [show_degrees_of_freedom], [show_model_numbers],
    [append_notes] and [rename_covariates] of the stargazer package. *)
Record Table : Type := {
  stargazer : Stargazer V;
  table_cov_names : list string;
  num_models : nat;
  degrees_of_freedom : bool;
  model_numbers : bool;
  notes_appended : bool;
  show_notes : bool;
  show_adj_r2 : bool;
  show_residual_std_err : bool;
  show_f_statistic : bool;
  cov_map : option (gmap string string)
}.

(** The table, the files (by path) and the console.  Opening and writing a
    file is taken to succeed. *)
Record World : Type := {
  table : Table;
  files : gmap string string;
  console : list string
}.

(** The method [render_latex] of the stargazer package. *)
Variable render_latex : Table -> string.

(** Lines 135 to 141. *)
Definition hide_statistics (t : Table) : Table :=
  {| stargazer := stargazer t;
     table_cov_names := table_cov_names t;
     num_models := num_models t;
     degrees_of_freedom := false;
     model_numbers := false;
     notes_appended := false;
     show_notes := false;
     show_adj_r2 := false;
     show_residual_std_err := false;
     show_f_statistic := false;
     cov_map := cov_map t |}.

(** [stargazer.rename_covariates(cov_latexdict)] *)
Definition rename_covariates (cov_latexdict : gmap string string) (t : Table)
    : Table :=
  {| stargazer := stargazer t;
     table_cov_names := table_cov_names t;
     num_models := num_models t;
     degrees_of_freedom := degrees_of_freedom t;
     model_numbers := model_numbers t;
     notes_appended := notes_appended t;
     show_notes := show_notes t;
     show_adj_r2 := show_adj_r2 t;
     show_residual_std_err := show_residual_std_err t;
     show_f_statistic := show_f_statistic t;
     cov_map := Some cov_latexdict |}.

Definition with_stargazer (sg : Stargazer V) (t : Table) : Table :=
  {| stargazer := sg;
     table_cov_names := table_cov_names t;
     num_models := num_models t;
     degrees_of_freedom := degrees_of_freedom t;
     model_numbers := model_numbers t;
     notes_appended := notes_appended t;
     show_notes := show_notes t;
     show_adj_r2 := show_adj_r2 t;
     show_residual_std_err := show_residual_std_err t;
     show_f_statistic := show_f_statistic t;
     cov_map := cov_map t |}.

Definition on_table (f : Table -> Table) : action World () :=
  modify (fun w => {| table := f (table w); files := files w; console := console w |}).

(** An action on the fields of the block, run on the table. *)
Definition on_stargazer (m : action (Stargazer V) ()) : action World () :=
  fun w =>
    let '(sg, r) := m (stargazer (table w)) in
    ({| table := with_stargazer sg (table w); files := files w;
        console := console w |}, r).

(** A call that returns or raises and leaves everything as it is. *)
Definition call {A : Type} (r : result A) : action World A :=
  match r with
  | Return a => pure a
  | Raise e => throw e
  end.

(** [with open(path, 'w') as f: f.write(text)] *)
Definition write_file (path text : string) : action World () :=
  modify (fun w =>
    {| table := table w; files := <[path := text]> (files w);
       console := console w |}).

Definition print_line (line : string) : action World () :=
  modify (fun w =>
    {| table := table w; files := files w; console := console w ++ [line] |}).

Definition savereg (filename tablepath : string) (latexdict : dict)
    (adjustwidth : width_policy) (debug : bool) : action World () :=
  let filename := clean_filename filename in
  w ← current;
  let adjustwidth :=
    match adjustwidth with
    | auto => bool_decide (4 < length (models (stargazer (table w))))
    | explicit adjust => adjust
    end in
  _ ← on_table hide_statistics;
  w ← current;
  cov_latexdict ←
    call (generate_covariate_latexdict latexdict (table_cov_names (table w)));
  _ ← on_table (rename_covariates cov_latexdict);
  _ ← on_stargazer savereg_pseudo_r2;
  w ← current;
  let latex := render_latex (table w) in
  let latex := postprocess (num_models (table w)) adjustwidth latex in
  _ ← write_file (tablepath +:+ filename +:+ ".tex") latex;
  _ ← (if debug then print_line ("Saved as: " +:+ tablepath +:+ filename +:+ ".tex")
       else pure ());
  let latex_table := tabular_part latex in
  write_file (tablepath +:+ filename +:+ "_tabular.tex") latex_table.

End SaveregWhole.

Arguments Table : clear implicits.
Arguments World : clear implicits.

(** What a run of the loop keeps, whether it returns or raises: the models,
    the number of dictionaries, the notes there were, every entry of a
    dictionary but ['r2'], and the dictionaries of the positions that are
    not gone through. *)
Definition kept {V : Type} (touched : nat -> Prop) (sg sg' : Stargazer V) : Prop :=
  models sg' = models sg
  /\ length (model_data sg') = length (model_data sg)
  /\ custom_notes sg `prefix_of` custom_notes sg'
  /\ (forall i, ~ touched i -> model_data sg' !! i = model_data sg !! i)
  /\ (forall i key, key ≠ "r2" ->
        model_data sg' !! i ≫= (fun d => d !! key)
        = model_data sg !! i ≫= (fun d => d !! key)).

(** A world for the examples: a table of two models with the covariates
    [cov_names], no file and an empty console; and a renderer that gives the
    same text for every table. *)
Definition world_of (cov_names : list string) : World nat :=
  {| table :=
       {| stargazer := table_all;
          table_cov_names := cov_names;
          num_models := 2;
          degrees_of_freedom := true;
          model_numbers := true;
          notes_appended := true;
          show_notes := true;
          show_adj_r2 := true;
          show_residual_std_err := true;
          show_f_statistic := true;
          cov_map := None |};
     files := ∅;
     console := [] |}.

Definition render_fixed (t : Table nat) : string :=
  "\begin{table}\begin{tabular}{lcc} nan \end{tabular}\end{table}".

(** Whether the table is wrapped in an [adjustbox]. *)
Definition adjusts {V : Type} (adjustwidth : width_policy) (w : World V) : bool :=
  match adjustwidth with
  | auto => bool_decide (4 < length (models (stargazer (table w))))
  | explicit adjust => adjust
  end.

(** ** Measures used in the statements *)

(** The number of terms that [generate_lower_order_interactions] returns for
    a list of [n] variables. *)
Fixpoint term_count (n : nat) : nat :=
  match n with
  | O => 0
  | S m => match m with
           | O => 0
           | S _ => n * S (term_count m)
           end
  end.

(** The display string that [generate_covariate_latexdict] gives a covariate
    (lines 105 to 107). *)
Definition display (latexdict : dict) (cov_name : string) : string :=
  Str.join " $\times$ "
    ((fun var => get latexdict var var) <$> Str.split ":" cov_name).

(** A covariate passes the two assertions. *)
Definition valid (latexdict : dict) (cov_names : list string) (cov_name : string)
    : Prop :=
  validate latexdict cov_names cov_name (Str.split ":" cov_name) = Return ().

(** A character that [clean_filename] deletes: no word character, and
    neither the space nor the slash, which are replaced first. *)
Definition is_deleted (c : ascii) : bool :=
  Char.is_nonword c && negb (Ascii.eqb c " ") && negb (Ascii.eqb c "/").

(** * Properties *)

Example clean_filename_ex : clean_filename "My Plot/V2!!" = "my_plot_over_v2".
Proof. reflexivity. Qed.

(** ** Facts on characters, by enumeration of the 256 code points *)

Section CharFacts.

Local Ltac by_cases_on c :=
  destruct c as [[] [] [] [] [] [] [] []]; vm_compute; intros; congruence.

Lemma lower_fixed (c : ascii) : Ascii.eqb (Char.lower (Char.lower c)) (Char.lower c) = true.
Proof. by_cases_on c. Qed.

Lemma lower_ascii (c : ascii) :
  Char.is_ascii c = true ->
  Char.is_ascii (Char.lower c) && negb (Char.is_upper (Char.lower c)) = true.
Proof. by_cases_on c. Qed.

Lemma word_ascii_not_upper (c : ascii) :
  Char.is_word c = true ->
  Char.is_ascii c && negb (Char.is_upper c) = true ->
  Char.is_lower_digit_underscore c = true.
Proof. by_cases_on c. Qed.

Lemma word_not_space (c : ascii) :
  Char.is_word c = true -> negb (Ascii.eqb c " ") = true.
Proof. by_cases_on c. Qed.

Lemma word_not_slash (c : ascii) :
  Char.is_word c = true -> negb (Ascii.eqb c "/") = true.
Proof. by_cases_on c. Qed.

Lemma underscore_word (c : ascii) :
  Char.is_underscore c = true -> Char.is_word c = true.
Proof. by_cases_on c. Qed.

End CharFacts.

(** ** Facts on the string operations *)

Section StrFacts.

Implicit Types (p q cls : ascii -> bool) (s t new repl : string) (c old : ascii).

Lemma app_empty t : "" +:+ t = t.
Proof. reflexivity. Qed.

Lemma app_String c s t : String c s +:+ t = String c (s +:+ t).
Proof. reflexivity. Qed.

Lemma all_chars_app p s t :
  Str.all_chars p (s +:+ t) = Str.all_chars p s && Str.all_chars p t.
Proof.
  induction s as [|c s IH]; [done|].
  rewrite app_String. simpl. by rewrite IH, andb_assoc.
Qed.

Lemma all_chars_weaken p q s :
  (forall c, p c = true -> q c = true) ->
  Str.all_chars p s = true -> Str.all_chars q s = true.
Proof.
  intros Hpq. induction s as [|c s IH]; simpl; [done|].
  rewrite !andb_true_iff. intros [Hc Hs]. auto.
Qed.

Lemma all_chars_both p q s :
  Str.all_chars p s = true -> Str.all_chars q s = true ->
  Str.all_chars (fun c => p c && q c) s = true.
Proof.
  induction s as [|c s IH]; simpl; [done|].
  rewrite !andb_true_iff. intros [? ?] [? ?]. auto.
Qed.

Lemma all_chars_lower p q s :
  (forall c, p c = true -> q (Char.lower c) = true) ->
  Str.all_chars p s = true -> Str.all_chars q (Str.lower s) = true.
Proof.
  intros Hpq. induction s as [|c s IH]; simpl; [done|].
  rewrite !andb_true_iff. intros [Hc Hs]. auto.
Qed.

Lemma all_chars_replace p old new s :
  Str.all_chars p new = true -> Str.all_chars p s = true ->
  Str.all_chars p (Str.replace old new s) = true.
Proof.
  intros Hnew. induction s as [|c s IH]; simpl; [done|].
  rewrite andb_true_iff. intros [Hc Hs].
  destruct (Ascii.eqb c old); simpl.
  - rewrite all_chars_app, Hnew. auto.
  - rewrite Hc. auto.
Qed.

Lemma all_chars_re_sub_run p cls repl b s :
  Str.all_chars p repl = true -> Str.all_chars p s = true ->
  Str.all_chars p (Str.re_sub_run cls repl b s) = true.
Proof.
  intros Hrepl. revert b. induction s as [|c s IH]; intros b; simpl; [done|].
  rewrite andb_true_iff. intros [Hc Hs].
  destruct (cls c); [destruct b|]; simpl; auto.
  - rewrite all_chars_app, Hrepl. simpl. auto.
  - rewrite Hc. simpl. auto.
Qed.

(** Nothing of the class is left when the runs are deleted. *)
Lemma re_sub_run_deletes cls b s :
  Str.all_chars (fun c => negb (cls c)) (Str.re_sub_run cls "" b s) = true.
Proof.
  revert b. induction s as [|c s IH]; intros b; simpl; [done|].
  destruct (cls c) eqn:Hc; [destruct b|]; simpl.
  - exact (IH true).
  - exact (IH true).
  - by rewrite Hc, IH.
Qed.

Lemma lower_id s :
  Str.all_chars (fun c => Ascii.eqb (Char.lower c) c) s = true -> Str.lower s = s.
Proof.
  induction s as [|c s IH]; simpl; [done|].
  rewrite andb_true_iff, Ascii.eqb_eq. intros [-> Hs]. by rewrite IH.
Qed.

Lemma replace_id old new s :
  Str.all_chars (fun c => negb (Ascii.eqb c old)) s = true ->
  Str.replace old new s = s.
Proof.
  induction s as [|c s IH]; simpl; [done|].
  rewrite andb_true_iff, negb_true_iff. intros [-> Hs]. by rewrite IH.
Qed.

Lemma re_sub_run_id cls repl b s :
  Str.all_chars (fun c => negb (cls c)) s = true ->
  Str.re_sub_run cls repl b s = s.
Proof.
  revert b. induction s as [|c s IH]; intros b; simpl; [done|].
  rewrite andb_true_iff, negb_true_iff. intros [-> Hs]. by rewrite IH.
Qed.

Lemma is_underscore_eq c : Char.is_underscore c = true -> c = "_"%char.
Proof. apply Ascii.eqb_eq. Qed.

Lemma repeated_underscore_cons c c' s :
  Str.repeated_underscore (String c (String c' s))
  = (Char.is_underscore c && Char.is_underscore c')
    || Str.repeated_underscore (String c' s).
Proof. reflexivity. Qed.

(** After a run has been replaced, the next character written is not an
    underscore; and no two underscores are ever written in a row. *)
Lemma collapse_no_repeat s :
  Str.repeated_underscore (Str.re_sub_run Char.is_underscore "_" false s) = false
  /\ Str.repeated_underscore (Str.re_sub_run Char.is_underscore "_" true s) = false
  /\ Str.no_leading_underscore (Str.re_sub_run Char.is_underscore "_" true s) = true.
Proof.
  induction s as [|c s (IH1 & IH2 & IH3)]; simpl; [done|].
  destruct (Char.is_underscore c) eqn:Hc; rewrite ?app_String, ?app_empty.
  - split_and!; [|done..].
    destruct (Str.re_sub_run Char.is_underscore "_" true s) as [|c' s'] eqn:E;
      [done|].
    rewrite repeated_underscore_cons, IH2.
    simpl in IH3. apply negb_true_iff in IH3. by rewrite IH3.
  - simpl Str.no_leading_underscore. rewrite Hc. split_and!; [| |done].
    all: destruct (Str.re_sub_run Char.is_underscore "_" false s) as [|c' s'] eqn:E;
      [done|]; by rewrite repeated_underscore_cons, Hc, IH1.
Qed.

Lemma collapse_id s :
  Str.repeated_underscore s = false ->
  Str.re_sub_run Char.is_underscore "_" false s = s
  /\ (Str.no_leading_underscore s = true ->
      Str.re_sub_run Char.is_underscore "_" true s = s).
Proof.
  induction s as [|c s IH]; [done|].
  intros Hrep.
  assert (Str.repeated_underscore s = false) as Hs.
  { destruct s; [done|].
    rewrite repeated_underscore_cons in Hrep.
    by apply orb_false_iff in Hrep as [_ ?]. }
  destruct (IH Hs) as [IH1 IH2]. simpl.
  destruct (Char.is_underscore c) eqn:Hc.
  - split; [|by intros [=]].
    apply is_underscore_eq in Hc as ->.
    rewrite app_String, app_empty, IH2; [done|].
    destruct s as [|c' s']; [done|].
    rewrite repeated_underscore_cons in Hrep.
    apply orb_false_iff in Hrep as [Hcc _]. simpl in Hcc |- *. by rewrite Hcc.
  - by rewrite IH1.
Qed.

Lemma split_field (sep : ascii) s :
  Str.all_chars (fun c => negb (Ascii.eqb c sep)) s = true ->
  Str.split sep s = [s].
Proof.
  induction s as [|c s IH]; simpl; [done|].
  rewrite andb_true_iff, negb_true_iff. intros [-> Hs]. by rewrite IH.
Qed.

(** The first field ends at the first separator. *)
Lemma split_first (sep : ascii) s t :
  Str.all_chars (fun c => negb (Ascii.eqb c sep)) s = true ->
  Str.split sep (s +:+ String sep t) = s :: Str.split sep t.
Proof.
  induction s as [|c s IH]; rewrite ?app_empty, ?app_String; simpl.
  - by rewrite Ascii.eqb_refl.
  - rewrite andb_true_iff, negb_true_iff. intros [-> Hs]. by rewrite IH.
Qed.

(** An interaction of two variables without colon splits into them. *)
Lemma split_pair x y :
  Str.all_chars (fun c => negb (Ascii.eqb c ":")) x = true ->
  Str.all_chars (fun c => negb (Ascii.eqb c ":")) y = true ->
  Str.split ":" (Str.join ":" [x; y]) = [x; y].
Proof.
  intros Hx Hy. change (Str.join ":" [x; y]) with (x +:+ String ":" y).
  by rewrite split_first, split_field.
Qed.

End StrFacts.

(** ** [clean_filename] *)

Section CleanFilename.

Implicit Types (p q : ascii -> bool) (s : string).

(** A property of characters that lower-casing establishes and that the
    inserted text has holds of the whole result. *)
Lemma clean_filename_all_chars p q s :
  (forall c, q c = true -> p (Char.lower c) = true) ->
  Str.all_chars p "_over_" = true ->
  Str.all_chars q s = true ->
  Str.all_chars p (clean_filename s) = true.
Proof.
  intros Hlow Hover Hs. unfold clean_filename, Str.re_sub_plus.
  assert (Str.all_chars p "_" = true) as Hu.
  { simpl in Hover |- *. by destruct (p "_"%char). }
  apply all_chars_re_sub_run; [done|].
  apply all_chars_re_sub_run; [done|].
  apply all_chars_replace; [done|].
  apply all_chars_replace; [done|].
  by apply all_chars_lower with q.
Qed.

Lemma clean_filename_word s :
  Str.all_chars Char.is_word (clean_filename s) = true.
Proof.
  unfold clean_filename, Str.re_sub_plus.
  apply all_chars_re_sub_run; [done|].
  eapply all_chars_weaken; [|apply re_sub_run_deletes].
  intros c. unfold Char.is_nonword. by rewrite negb_involutive.
Qed.

Lemma clean_filename_no_repeat s :
  Str.repeated_underscore (clean_filename s) = false.
Proof. unfold clean_filename, Str.re_sub_plus. apply collapse_no_repeat. Qed.

Lemma clean_filename_lower s :
  Str.all_chars (fun c => Ascii.eqb (Char.lower c) c) (clean_filename s) = true.
Proof.
  apply clean_filename_all_chars with (q := fun _ => true); [|done|].
  - intros c _. apply lower_fixed.
  - by induction s.
Qed.

(** A cleaned name is left as it is by each of the four steps. *)
Lemma clean_filename_fixed s :
  Str.all_chars Char.is_word s = true ->
  Str.all_chars (fun c => Ascii.eqb (Char.lower c) c) s = true ->
  Str.repeated_underscore s = false ->
  clean_filename s = s.
Proof.
  intros Hword Hlow Hrep. unfold clean_filename, Str.re_sub_plus.
  rewrite (lower_id s Hlow).
  rewrite (replace_id " " "_" s)
    by (eapply all_chars_weaken; [apply word_not_space|exact Hword]).
  rewrite (replace_id "/" "_over_" s)
    by (eapply all_chars_weaken; [apply word_not_slash|exact Hword]).
  rewrite (re_sub_run_id Char.is_nonword "" false s).
  - by apply collapse_id.
  - eapply all_chars_weaken; [|exact Hword].
    intros c Hc. unfold Char.is_nonword. by rewrite Hc.
Qed.

(** C8, as the code has it: for every input string of ASCII characters,
    the output of [clean_filename] contains only characters of
    [[a-z0-9_]] and no two consecutive underscores. *)
Theorem clean_filename_ascii_charset s :
  Str.all_chars Char.is_ascii s = true ->
  Str.all_chars Char.is_lower_digit_underscore (clean_filename s) = true
  /\ Str.repeated_underscore (clean_filename s) = false.
Proof.
  intros Hs. split; [|apply clean_filename_no_repeat].
  eapply all_chars_weaken;
    [|apply all_chars_both;
       [apply clean_filename_word
       |apply (clean_filename_all_chars
                 (fun c => Char.is_ascii c && negb (Char.is_upper c))
                 Char.is_ascii s lower_ascii); [done|exact Hs]]].
  intros c [Hw Ha]%andb_true_iff. by apply word_ascii_not_upper.
Qed.

Lemma clean_filename_ascii_charset_witness :
  Str.all_chars Char.is_ascii "My Plot/V2!!" = true
  /\ Str.all_chars Char.is_lower_digit_underscore
       (clean_filename "My Plot/V2!!") = true
  /\ Str.repeated_underscore (clean_filename "My Plot/V2!!") = false.
Proof.
  split; [reflexivity|].
  apply (clean_filename_ascii_charset "My Plot/V2!!"). reflexivity.
Defined.

(** C8, as stated, fails: the letter U+00E9 is a word character, so it is
    kept, and it is outside [[a-z0-9_]]. *)
Lemma clean_filename_keeps_latin_letter :
  clean_filename (String "233" "") = String "233" ""
  /\ Str.all_chars Char.is_lower_digit_underscore
       (clean_filename (String "233" "")) = false.
Proof. split; reflexivity. Qed.

(** On the strings of the code points U+0000..U+00FF, [clean_filename] is
    idempotent, and [clean_filename("My Plot/V2!!")] is
    ["my_plot_over_v2"]. *)
Theorem clean_filename_idempotent :
  (forall s, clean_filename (clean_filename s) = clean_filename s)
  /\ clean_filename "My Plot/V2!!" = "my_plot_over_v2".
Proof.
  split; [|reflexivity].
  intros s. apply clean_filename_fixed.
  - apply clean_filename_word.
  - apply clean_filename_lower.
  - apply clean_filename_no_repeat.
Qed.

End CleanFilename.

(** ** [clean_filename] on strings of any code points *)

Section CleanFilenameUnicode.

Variable to_lower_full : N -> list N.
Variable final_sigma : list N -> nat -> bool.
Variable isalnum : N -> bool.

Hypothesis Hstable : Unicode.lower_stable to_lower_full.
Hypothesis Hsigma : Unicode.sigmas_lower to_lower_full.
Hypothesis Hascii : Unicode.ascii_tables to_lower_full isalnum.

Implicit Types (s t new repl : list N) (c d old : N) (cls : N -> bool) (b : bool).

Local Abbreviation lower := (Unicode.lower to_lower_full final_sigma).
Local Abbreviation is_word := (Unicode.is_word isalnum).
Local Abbreviation is_nonword := (Unicode.is_nonword isalnum).
Local Abbreviation clean := (Unicode.clean_filename to_lower_full final_sigma isalnum).

Local Abbreviation stable := (Unicode.stable to_lower_full).

Lemma lower_at_stable s i c d : d ∈ Unicode.lower_at to_lower_full final_sigma s i c -> stable d.
Proof.
  unfold Unicode.lower_at. destruct (N.eqb_spec c Unicode.capital_sigma) as [->|Hc].
  - intros ->%list_elem_of_singleton. destruct Hsigma as [Hs Hf].
    by destruct (final_sigma s i).
  - apply Hstable.
Qed.

Lemma lower_stable_chars s : Forall stable (lower s).
Proof.
  apply Forall_forall. intros d Hd. unfold Unicode.lower in Hd.
  apply list_elem_of_join in Hd as (part & Hd & Hpart).
  apply elem_of_lookup_imap in Hpart as (i & c & -> & _).
  by eapply lower_at_stable.
Qed.

Lemma join_imap_singleton (f : nat -> N -> list N) (h : N -> N) s :
  (forall i c, s !! i = Some c -> f i c = [h c]) -> mjoin (imap f s) = h <$> s.
Proof.
  revert f. induction s as [|c s IH]; intros f Hf; [done|].
  rewrite imap_cons. simpl. rewrite (Hf 0 c eq_refl). simpl. f_equal.
  apply IH. intros i d Hd. by apply (Hf (S i)).
Qed.

Lemma lower_fixes t : Forall stable t -> lower t = t.
Proof.
  intros Ht. unfold Unicode.lower.
  rewrite (join_imap_singleton _ id); [by rewrite list_fmap_id|].
  intros i c Hc. rewrite Forall_forall in Ht.
  destruct (Ht c) as [Hne Hlow]; [by eapply list_elem_of_lookup_2|].
  unfold Unicode.lower_at. by destruct (N.eqb_spec c Unicode.capital_sigma).
Qed.

Lemma Forall_replace (P : N -> Prop) old new s :
  Forall P new -> Forall P s -> Forall P (Unicode.replace old new s).
Proof.
  intros Hnew Hs. unfold Unicode.replace. apply Forall_bind.
  eapply Forall_impl; [exact Hs|]. intros c Hc. simpl.
  destruct (c =? old)%N; [done|by constructor].
Qed.

Lemma Forall_re_sub_run (P : N -> Prop) cls repl b s :
  Forall P repl -> Forall P s -> Forall P (Unicode.re_sub_run cls repl b s).
Proof.
  intros Hrepl Hs. revert b. induction Hs as [|c s Hc Hs IH]; intros b; simpl.
  - constructor.
  - destruct (cls c); [destruct b|]; [apply IH| |by constructor].
    apply Forall_app. split; [done|apply IH].
Qed.

Lemma re_sub_run_deletes_all cls b s :
  Forall (fun c => cls c = false) (Unicode.re_sub_run cls [] b s).
Proof.
  revert b. induction s as [|c s IH]; intros b; simpl; [constructor|].
  destruct (cls c) eqn:Hc; [destruct b; apply IH|by constructor].
Qed.

Lemma replace_absent_char old new s :
  Forall (fun c => c ≠ old) s -> Unicode.replace old new s = s.
Proof.
  unfold Unicode.replace. induction 1 as [|c s Hc Hs IH]; [done|].
  rewrite bind_cons, IH. by destruct (N.eqb_spec c old).
Qed.

Lemma re_sub_run_none cls repl b s :
  Forall (fun c => cls c = false) s -> Unicode.re_sub_run cls repl b s = s.
Proof.
  intros Hs. revert b. induction Hs as [|c s Hc Hs IH]; intros b; simpl; [done|].
  by rewrite Hc, IH.
Qed.

Lemma re_sub_run_ext cls cls' repl b s :
  Forall (fun c => cls c = cls' c) s ->
  Unicode.re_sub_run cls repl b s = Unicode.re_sub_run cls' repl b s.
Proof.
  intros Hs. revert b. induction Hs as [|c s Hc Hs IH]; intros b; simpl; [done|].
  by rewrite Hc, !IH.
Qed.

(** Runs of underscores that are collapsed stay as they are when they are
    collapsed again. *)
Lemma collapse_twice s :
  let collapse b := Unicode.re_sub_run Unicode.is_underscore (Unicode.of_string "_") b in
  collapse false (collapse false s) = collapse false s
  /\ collapse false (collapse true s) = collapse true s
  /\ collapse true (collapse true s) = collapse true s.
Proof.
  intros collapse. induction s as [|c s (IH1 & IH2 & IH3)]; [done|].
  unfold collapse in *. simpl. destruct (Unicode.is_underscore c) eqn:Hc.
  - split_and!; [|done..]. simpl. by rewrite IH3.
  - simpl. by rewrite Hc, IH1.
Qed.

Lemma ascii_stable c : (c < 128)%N -> Unicode.ascii_lower c = c -> stable c.
Proof.
  intros Hc Hlow. split.
  - unfold Unicode.capital_sigma. lia.
  - destruct (Hascii c Hc) as [-> _]. by rewrite Hlow.
Qed.

Lemma over_stable : Forall stable (Unicode.of_string "_over_").
Proof. repeat constructor; by apply ascii_stable. Qed.

Lemma underscore_stable : Forall stable (Unicode.of_string "_").
Proof. repeat constructor; by apply ascii_stable. Qed.

Lemma word_neither_space_nor_slash c :
  is_word c = true -> c ≠ Unicode.space /\ c ≠ Unicode.slash.
Proof.
  intros Hw. split; intros ->; unfold Unicode.is_word in Hw.
  - destruct (Hascii Unicode.space) as [_ Hal]; [done|]. by rewrite Hal in Hw.
  - destruct (Hascii Unicode.slash) as [_ Hal]; [done|]. by rewrite Hal in Hw.
Qed.

Lemma clean_stable s : Forall stable (clean s).
Proof.
  unfold Unicode.clean_filename, Unicode.re_sub_plus.
  apply Forall_re_sub_run; [apply underscore_stable|].
  apply Forall_re_sub_run; [constructor|].
  apply Forall_replace; [apply over_stable|].
  apply Forall_replace; [apply underscore_stable|].
  apply lower_stable_chars.
Qed.

Lemma clean_word s : Forall (fun c => is_word c = true) (clean s).
Proof.
  unfold Unicode.clean_filename, Unicode.re_sub_plus.
  apply Forall_re_sub_run.
  - repeat constructor. unfold Unicode.is_word. by rewrite orb_true_r.
  - eapply Forall_impl; [apply re_sub_run_deletes_all|].
    intros c Hc. unfold Unicode.is_nonword in Hc. by apply negb_false_iff.
Qed.

Lemma clean_twice s : clean (clean s) = clean s.
Proof.
  pose proof (clean_stable s) as Hst. pose proof (clean_word s) as Hw.
  unfold Unicode.clean_filename at 1. unfold Unicode.re_sub_plus.
  rewrite (lower_fixes _ Hst).
  rewrite (replace_absent_char Unicode.space)
    by (eapply Forall_impl; [exact Hw|]; intros c Hc;
        by apply word_neither_space_nor_slash).
  rewrite (replace_absent_char Unicode.slash)
    by (eapply Forall_impl; [exact Hw|]; intros c Hc;
        by apply word_neither_space_nor_slash).
  rewrite (re_sub_run_none is_nonword)
    by (eapply Forall_impl; [exact Hw|]; intros c Hc;
        unfold Unicode.is_nonword; by rewrite Hc).
  unfold Unicode.clean_filename, Unicode.re_sub_plus. apply collapse_twice.
Qed.

Lemma lower_ascii_codes s :
  Forall (fun c => (c < 128)%N) s -> lower s = Unicode.ascii_lower <$> s.
Proof.
  intros Hs. unfold Unicode.lower. apply join_imap_singleton.
  intros i c Hc. rewrite Forall_forall in Hs.
  assert (c < 128)%N as Hlt by (by eapply Hs, list_elem_of_lookup_2).
  unfold Unicode.lower_at. destruct (N.eqb_spec c Unicode.capital_sigma) as [->|_].
  - unfold Unicode.capital_sigma in Hlt. lia.
  - by destruct (Hascii c Hlt) as [-> _].
Qed.

Lemma clean_example :
  clean (Unicode.of_string "My Plot/V2!!") = Unicode.of_string "my_plot_over_v2".
Proof.
  unfold Unicode.clean_filename, Unicode.re_sub_plus.
  rewrite lower_ascii_codes by (vm_compute; repeat (constructor; [reflexivity|]); constructor).
  rewrite (re_sub_run_ext is_nonword
             (fun c => negb (Unicode.ascii_isalnum c || (c =? Unicode.underscore)%N))).
  - by vm_compute.
  - eapply Forall_impl with (P := fun c => (c < 128)%N).
    + vm_compute. repeat (constructor; [reflexivity|]). constructor.
    + intros c Hc. unfold Unicode.is_nonword, Unicode.is_word.
      by destruct (Hascii c Hc) as [_ ->].
Qed.

(** C9: [clean_filename] is idempotent, for every string of code points,
    and [clean_filename("My Plot/V2!!")] is ["my_plot_over_v2"].  The
    tables of the runtime are any that are the ASCII ones below 128 and
    whose lower-case mappings are left alone by [lower]. *)
Theorem clean_filename_idempotent_unicode :
  (forall s, clean (clean s) = clean s)
  /\ clean (Unicode.of_string "My Plot/V2!!") = Unicode.of_string "my_plot_over_v2".
Proof. split; [apply clean_twice|apply clean_example]. Qed.

End CleanFilenameUnicode.

Lemma to_lower_example_stable : Unicode.lower_stable Unicode.to_lower_example.
Proof.
  intros c d. unfold Unicode.to_lower_example, Unicode.ascii_lower, Unicode.capital_sigma,
    Unicode.small_sigma.
  destruct (N.eqb_spec c 931) as [->|Hc].
  - intros ->%list_elem_of_singleton. split; [lia|done].
  - intros ->%list_elem_of_singleton.
    destruct (N.leb_spec 65 c), (N.leb_spec c 90); simpl.
    + split; [lia|].
      destruct (N.eqb_spec (c + 32) 931); [lia|].
      by destruct (N.leb_spec 65 (c + 32)), (N.leb_spec (c + 32) 90); simpl; [lia|..].
    + split; [done|]. destruct (N.eqb_spec c 931); [done|].
      by destruct (N.leb_spec 65 c), (N.leb_spec c 90); simpl; [lia|..].
    + split; [done|]. destruct (N.eqb_spec c 931); [done|].
      by destruct (N.leb_spec 65 c), (N.leb_spec c 90); simpl; [lia|..].
    + split; [done|]. destruct (N.eqb_spec c 931); [done|].
      by destruct (N.leb_spec 65 c), (N.leb_spec c 90); simpl; [lia|..].
Qed.

Lemma to_lower_example_ascii :
  Unicode.ascii_tables Unicode.to_lower_example Unicode.ascii_isalnum.
Proof.
  intros c Hc. split; [|done]. unfold Unicode.to_lower_example, Unicode.capital_sigma.
  destruct (N.eqb_spec c 931); [lia|done].
Qed.

Lemma clean_filename_idempotent_unicode_witness :
  Unicode.lower_stable Unicode.to_lower_example
  /\ Unicode.sigmas_lower Unicode.to_lower_example
  /\ Unicode.ascii_tables Unicode.to_lower_example Unicode.ascii_isalnum
  /\ (forall s,
        Unicode.clean_filename Unicode.to_lower_example Unicode.final_sigma_example
          Unicode.ascii_isalnum
          (Unicode.clean_filename Unicode.to_lower_example Unicode.final_sigma_example
             Unicode.ascii_isalnum s)
        = Unicode.clean_filename Unicode.to_lower_example Unicode.final_sigma_example
            Unicode.ascii_isalnum s)
  /\ Unicode.clean_filename Unicode.to_lower_example Unicode.final_sigma_example
       Unicode.ascii_isalnum (Unicode.of_string "My Plot/V2!!")
     = Unicode.of_string "my_plot_over_v2".
Proof.
  assert (Unicode.sigmas_lower Unicode.to_lower_example) as Hsigma
    by (split; reflexivity).
  split_and!;
    [exact to_lower_example_stable|exact Hsigma|exact to_lower_example_ascii|..];
    apply (clean_filename_idempotent_unicode Unicode.to_lower_example
             Unicode.final_sigma_example Unicode.ascii_isalnum
             to_lower_example_stable Hsigma to_lower_example_ascii).
Defined.


(** ** [generate_lower_order_interactions] *)

Section LowerOrder.

Implicit Types (vars sub : list string) (recurse : list string -> list string).

Lemma omit_delete i vars : omit i vars = delete i vars.
Proof. unfold omit. by rewrite delete_take_drop. Qed.

Lemma length_omit i vars :
  (i < length vars)%nat -> length (omit i vars) = pred (length vars).
Proof.
  intros Hi. rewrite omit_delete, length_delete; [lia|].
  by apply lookup_lt_is_Some.
Qed.

Lemma lower_order_step_terms recurse vars acc i :
  lower_order_step recurse vars acc i = acc ++ lower_order_terms recurse vars i.
Proof.
  unfold lower_order_step, lower_order_terms.
  repeat case_bool_decide; by rewrite <- ?app_assoc, ?app_nil_r.
Qed.

(** The loop appends the terms of each round, in the order of the rounds. *)
Lemma lower_order_loop recurse vars rounds acc :
  fold_left (lower_order_step recurse vars) rounds acc
  = acc ++ (rounds ≫= lower_order_terms recurse vars).
Proof.
  revert acc. induction rounds as [|i rounds IH]; intros acc; simpl.
  - by rewrite app_nil_r.
  - by rewrite IH, lower_order_step_terms, <- app_assoc.
Qed.

Lemma lower_order_terms_ext recurse recurse' vars i :
  (forall sub, length sub = length (omit i vars) -> recurse sub = recurse' sub) ->
  lower_order_terms recurse vars i = lower_order_terms recurse' vars i.
Proof.
  intros Hrec. unfold lower_order_terms.
  case_bool_decide; case_bool_decide; try done; by rewrite Hrec.
Qed.

Lemma bind_ext_in {A B : Type} (f g : A -> list B) (l : list A) :
  (forall x, x ∈ l -> f x = g x) -> l ≫= f = l ≫= g.
Proof.
  induction l as [|x l IH]; intros Hfg; [done|].
  rewrite !bind_cons, Hfg by left. f_equal. apply IH. intros y Hy. apply Hfg. by right.
Qed.

Lemma lower_order_upto_S depth vars :
  lower_order_upto (S depth) vars
  = seq 0 (length vars) ≫= lower_order_terms (lower_order_upto depth) vars.
Proof. simpl. by rewrite lower_order_loop. Qed.

(** Depth enough for the length of the list gives the result of the
    function: the bound is never what stops the recursion. *)
Lemma lower_order_upto_enough depth vars :
  (length vars <= depth)%nat ->
  lower_order_upto depth vars = generate_lower_order_interactions vars.
Proof.
  unfold generate_lower_order_interactions.
  revert vars. induction depth as [|depth IH]; intros vars Hlen.
  - by replace (length vars) with 0%nat by lia.
  - destruct (length vars) as [|n] eqn:Hn.
    + rewrite lower_order_upto_S. by rewrite Hn.
    + rewrite !lower_order_upto_S.
      apply bind_ext_in. intros i Hi%elem_of_seq.
      apply lower_order_terms_ext. intros sub Hsub.
      rewrite length_omit in Hsub by lia. rewrite Hn in Hsub. simpl in Hsub.
      rewrite IH by lia. by rewrite Hsub.
Qed.

(** The equation of the source: one round per position, each appending the
    reduced term and then the terms of the recursive call on it. *)
Lemma generate_lower_order_interactions_eq vars :
  generate_lower_order_interactions vars
  = seq 0 (length vars)
      ≫= lower_order_terms generate_lower_order_interactions vars.
Proof.
  unfold generate_lower_order_interactions at 1.
  destruct (length vars) as [|n] eqn:Hn; [done|].
  rewrite lower_order_upto_S, Hn.
  apply bind_ext_in. intros i Hi%elem_of_seq.
  apply lower_order_terms_ext. intros sub Hsub.
  rewrite length_omit in Hsub by lia. rewrite Hn in Hsub. simpl in Hsub.
  by apply lower_order_upto_enough; lia.
Qed.

Lemma elem_of_lower_order_interactions vars s :
  s ∈ generate_lower_order_interactions vars
  <-> exists i, (i < length vars)%nat
       /\ s ∈ lower_order_terms generate_lower_order_interactions vars i.
Proof.
  rewrite generate_lower_order_interactions_eq at 1.
  rewrite list_elem_of_bind. split.
  - intros (i & Hs & Hi%elem_of_seq). exists i. split; [lia|done].
  - intros (i & Hi & Hs). exists i. split; [done|]. apply elem_of_seq. lia.
Qed.

Lemma elem_of_lower_order_terms recurse vars i s :
  s ∈ lower_order_terms recurse vars i
  <-> (omit i vars ≠ [] /\ s = Str.join ":" (omit i vars))
     \/ ((1 < length (omit i vars))%nat /\ s ∈ recurse (omit i vars)).
Proof.
  unfold lower_order_terms. rewrite elem_of_app.
  repeat case_bool_decide; rewrite ?list_elem_of_singleton, ?elem_of_nil;
    intuition.
Qed.

(** Every term is the join of a non-empty proper sub-list of the input. *)
Lemma lower_order_interactions_sublist vars s :
  s ∈ generate_lower_order_interactions vars ->
  exists sub, sub `sublist_of` vars
    /\ (1 <= length sub < length vars)%nat
    /\ s = Str.join ":" sub.
Proof.
  remember (length vars) as n eqn:Hn. revert vars Hn s.
  induction n as [n IH] using lt_wf_ind. intros vars -> s.
  rewrite elem_of_lower_order_interactions. intros (i & Hi & Hs).
  apply elem_of_lower_order_terms in Hs.
  pose proof (length_omit i vars Hi) as Hlen.
  assert (omit i vars `sublist_of` vars) as Hsub
    by (rewrite omit_delete; apply sublist_delete).
  destruct Hs as [[Hne ->]|[Hlong Hs]].
  - exists (omit i vars). split_and!; [done| |lia|done].
    destruct (omit i vars); [done|simpl; lia].
  - destruct (IH (length (omit i vars)) ltac:(lia) (omit i vars) eq_refl s Hs)
      as (sub & Hsub' & Hsublen & ->).
    exists sub. split_and!; [by etrans|lia|lia|done].
Qed.

(** With two variables or more, each variable is a term on its own. *)
Lemma lower_order_interactions_single vars v :
  (2 <= length vars)%nat -> v ∈ vars ->
  v ∈ generate_lower_order_interactions vars.
Proof.
  remember (length vars) as n eqn:Hn. revert vars Hn v.
  induction n as [n IH] using lt_wf_ind. intros vars -> v Hlen Hv.
  apply list_elem_of_lookup in Hv as [j Hj].
  pose proof (lookup_lt_Some _ _ _ Hj) as Hjlt.
  set (i := if decide (j = 0) then 1 else 0).
  assert (i < length vars)%nat as Hi by (unfold i; case_decide; lia).
  assert (v ∈ omit i vars) as Hin.
  { rewrite omit_delete. apply list_elem_of_lookup. unfold i.
    case_decide as Hj0.
    - exists 0. rewrite list_lookup_delete_lt by lia. by subst j.
    - exists (pred j). rewrite list_lookup_delete_ge by lia.
      by replace (S (pred j)) with j by lia. }
  pose proof (length_omit i vars Hi) as Hlo.
  apply elem_of_lower_order_interactions. exists i. split; [done|].
  apply elem_of_lower_order_terms.
  destruct (decide (length vars = 2)) as [H2|H2].
  - left. destruct (omit i vars) as [|x [|y rest]] eqn:E; simpl in Hlo; try lia.
    apply list_elem_of_singleton in Hin as ->. done.
  - right. split; [lia|]. apply (IH (length (omit i vars))); [lia|done|lia|done].
Qed.

(** C1, as the code has it: for [["A","B","C"]] the rounds omit the first
    variable first, and each pair is followed by its single variables. *)
Theorem lower_order_interactions_ABC :
  generate_lower_order_interactions ["A"; "B"; "C"]
  = ["B:C"; "C"; "B"; "A:C"; "C"; "A"; "A:B"; "B"; "A"].
Proof. reflexivity. Qed.

(** C1, as stated, fails: the result is not [["A:B","A:C","B:C"]]. *)
Lemma lower_order_interactions_ABC_not_pairs :
  generate_lower_order_interactions ["A"; "B"; "C"] ≠ ["A:B"; "A:C"; "B:C"].
Proof. by vm_compute. Qed.

(** C2, as the code has it: for two variable names or more, every term is
    the colon-join of a non-empty proper sub-list of the input, and every
    variable of the input is a term on its own. *)
Theorem lower_order_interactions_terms vars :
  (2 <= length vars)%nat ->
  (forall s, s ∈ generate_lower_order_interactions vars ->
     exists sub, sub `sublist_of` vars
       /\ (1 <= length sub < length vars)%nat
       /\ s = Str.join ":" sub)
  /\ (forall v, v ∈ vars -> v ∈ generate_lower_order_interactions vars).
Proof.
  intros Hlen. split.
  - intros s. apply lower_order_interactions_sublist.
  - intros v. by apply lower_order_interactions_single.
Qed.

Lemma lower_order_interactions_terms_witness :
  (2 <= length ["A"; "B"; "C"])%nat
  /\ (forall s, s ∈ generate_lower_order_interactions ["A"; "B"; "C"] ->
        exists sub, sub `sublist_of` ["A"; "B"; "C"]
          /\ (1 <= length sub < length ["A"; "B"; "C"])%nat
          /\ s = Str.join ":" sub)
  /\ (forall v, v ∈ ["A"; "B"; "C"] ->
        v ∈ generate_lower_order_interactions ["A"; "B"; "C"]).
Proof.
  split; [simpl; lia|].
  apply (lower_order_interactions_terms ["A"; "B"; "C"]). simpl. lia.
Defined.

(** A join of two strings or more has the separator in it. *)
Lemma join_two_not_single (c : ascii) sub :
  c ≠ ":"%char -> (2 <= length sub)%nat -> String c "" ≠ Str.join ":" sub.
Proof.
  intros Hc Hlen. destruct sub as [|x [|y rest]]; simpl in Hlen; try lia.
  change (Str.join ":" (x :: y :: rest))
    with (x +:+ ":" +:+ Str.join ":" (y :: rest)).
  destruct x as [|c' [|c'' x]]; rewrite ?app_String, ?app_empty; congruence.
Qed.

(** C2, as stated, fails: for [["A","B"]] the term ["B"] is emitted, and it
    is not the colon-join of two variables or more. *)
Lemma lower_order_interactions_single_emitted :
  "B" ∈ generate_lower_order_interactions ["A"; "B"]
  /\ ~ (exists sub, (2 <= length sub)%nat /\ "B" = Str.join ":" sub).
Proof.
  split.
  - change (generate_lower_order_interactions ["A"; "B"]) with ["B"; "A"]. by left.
  - intros (sub & Hlen & Hjoin). by apply join_two_not_single in Hjoin.
Qed.

End LowerOrder.

(** ** Loops that may raise *)

Section Loops.

(** A loop in which every round returns, returns. *)
Lemma for_each_returns {A S : Type} (body : S -> A -> result S) (l : list A) (s : S) :
  (forall s x, x ∈ l -> exists s', body s x = Return s') ->
  exists s', for_each body l s = Return s'.
Proof.
  revert s. induction l as [|x l IH]; intros s Hbody; simpl; [by eexists|].
  destruct (Hbody s x) as [s' ->]; [by left|]. simpl.
  apply IH. intros s'' y Hy. apply Hbody. by right.
Qed.

(** A loop raises what the first round that raises does. *)
Lemma for_each_first_raise {A S : Type} (body : S -> A -> result S)
    (before after : list A) (x : A) (e : exn) (s : S) :
  (forall s y, y ∈ before -> exists s', body s y = Return s') ->
  (forall s, body s x = Raise e) ->
  for_each body (before ++ x :: after) s = Raise e.
Proof.
  revert s. induction before as [|y before IH]; intros s Hbefore Hx; simpl.
  - by rewrite Hx.
  - destruct (Hbefore s y) as [s' ->]; [by left|]. simpl.
    apply IH; [|done]. intros s'' z Hz. apply Hbefore. by right.
Qed.

(** A loop with a round that always raises does not return. *)
Lemma for_each_some_raise {A S : Type} (body : S -> A -> result S) (l : list A)
    (x : A) (s : S) :
  x ∈ l ->
  (forall s, exists e, body s x = Raise e) ->
  exists e, for_each body l s = Raise e.
Proof.
  intros Hx Hraise. revert s.
  induction l as [|y l IH]; intros s; [by apply elem_of_nil in Hx|].
  simpl. destruct (body s y) as [s'|e] eqn:Hy; simpl; [|by eexists].
  apply elem_of_cons in Hx as [->|Hx]; [|by apply IH].
  destruct (Hraise s) as [e He]. congruence.
Qed.

Lemma for_loop_cons {A S : Type} (body : A -> action S ()) (a : A) (l : list A) (s : S) :
  for_loop body (a :: l) s
  = match body a s with
    | (s', Return _) => for_loop body l s'
    | (s', Raise e) => (s', Raise e)
    end.
Proof. reflexivity. Qed.

End Loops.

(** ** [sorted]: the insertion sort is the stable sort *)

Section SortedFacts.

Variable key : string -> sort_key.

Implicit Types (x y : string) (l : list string).

Lemma key_le_total a b : key_le a b = false -> key_le b a = true.
Proof. destruct a, b; simpl; try done. intros H%Z.leb_gt. apply Z.leb_le. lia. Qed.

Lemma key_le_trans a b c :
  key_le a b = true -> key_le b c = true -> key_le a c = true.
Proof.
  destruct a, b, c; simpl; try done.
  rewrite !Z.leb_le. lia.
Qed.

Lemma key_le_strict a b : key_le a b = false -> a ≠ b.
Proof.
  intros H ->. destruct b; simpl in H; [|done].
  apply Z.leb_gt in H. lia.
Qed.

Lemma insert_by_perm x l : insert_by key x l ≡ₚ x :: l.
Proof.
  induction l as [|y l IH]; simpl; [done|].
  destruct (key_le (key x) (key y)); [done|].
  by rewrite IH, Permutation_swap.
Qed.

(** The result holds the same elements. *)
Lemma sorted_perm l : sorted key l ≡ₚ l.
Proof.
  induction l as [|x l IH]; simpl; [done|].
  by rewrite insert_by_perm, IH.
Qed.

Lemma insert_by_hd x a l :
  key_ordered key a x -> HdRel (key_ordered key) a l -> HdRel (key_ordered key) a (insert_by key x l).
Proof.
  intros Hax Hal. destruct l as [|y l]; simpl; [by constructor|].
  destruct (key_le (key x) (key y)); constructor; [done|].
  by inversion Hal.
Qed.

Lemma insert_by_sorted x l :
  Sorted (key_ordered key) l -> Sorted (key_ordered key) (insert_by key x l).
Proof.
  induction 1 as [|y l Hl IH Hhd]; simpl; [by repeat constructor|].
  destruct (key_le (key x) (key y)) eqn:Hxy.
  - constructor; [by constructor|by constructor].
  - constructor; [done|]. apply insert_by_hd; [|done].
    by apply key_le_total.
Qed.

(** The result is in ascending order of the keys. *)
Lemma sorted_sorted l : Sorted (key_ordered key) (sorted key l).
Proof.
  induction l as [|x l IH]; simpl; [constructor|].
  by apply insert_by_sorted.
Qed.

Lemma insert_by_filter k x l :
  filter (fun y => key y = k) (insert_by key x l)
  = filter (fun y => key y = k) (x :: l).
Proof.
  induction l as [|y l IH]; simpl; [done|].
  destruct (key_le (key x) (key y)) eqn:Hxy; [done|].
  apply key_le_strict in Hxy.
  rewrite filter_cons, IH, !filter_cons.
  repeat case_decide; congruence.
Qed.

(** The sort is stable: the elements of one key keep their order. *)
Lemma sorted_stable k l :
  filter (fun y => key y = k) (sorted key l) = filter (fun y => key y = k) l.
Proof.
  induction l as [|x l IH]; simpl; [done|].
  by rewrite insert_by_filter, !filter_cons, IH.
Qed.

End SortedFacts.

(** ** [generate_covariate_latexdict] *)

Section CovariateLatexdict.

Implicit Types (latexdict : dict) (cov_names vars : list string)
  (cov_name x y : string) (m : gmap string string).

Local Ltac listed := apply list_elem_of_In; simpl; tauto.
Local Ltac not_listed := rewrite list_elem_of_In; simpl; intuition discriminate.

Lemma lower_order_interactions_pair x y :
  generate_lower_order_interactions [x; y] = [y; x].
Proof. reflexivity. Qed.

(** The step for a covariate returns when its validation does, and raises
    what its validation raises. *)
Lemma covariate_step_validate latexdict cov_names m cov_name :
  covariate_step latexdict cov_names m cov_name
  = match validate latexdict cov_names cov_name (Str.split ":" cov_name) with
    | Return _ =>
        Return (<[cov_name :=
                    Str.join " $\times$ "
                      ((fun var => get latexdict var var) <$> Str.split ":" cov_name)]> m)
    | Raise e => Raise e
    end.
Proof.
  unfold covariate_step.
  by destruct (validate latexdict cov_names cov_name (Str.split ":" cov_name)).
Qed.

(** The first assertion fails on a pair whose variables are not listed. *)
Lemma validate_pair_missing latexdict cov_names cov_name x y :
  x ∉ cov_names -> y ∉ cov_names ->
  validate latexdict cov_names cov_name [x; y]
  = Raise (AssertionError (Missing_interactions cov_name {[x; y]})).
Proof.
  intros Hx Hy. unfold validate.
  rewrite bool_decide_eq_true_2 by (simpl; lia).
  rewrite lower_order_interactions_pair.
  rewrite bool_decide_eq_false_2.
  - do 3 f_equal. apply set_eq. intros z.
    rewrite elem_of_difference, !elem_of_list_to_set, elem_of_union,
      !elem_of_singleton, !elem_of_cons, elem_of_nil.
    split; [intros [[->|[->|[]]] _]; auto|intros [->| ->]; auto].
  - intros Hsub. apply Hy, (elem_of_list_to_set (C := gset string)), Hsub.
    apply elem_of_list_to_set. by left.
Qed.

(** C3, as the code has it: with the keys inserted in the order A, B the
    covariate ["A:B"] fails the order validation, whose correct order is
    ["B:A"]; with the keys inserted in the order B, A the call returns and
    maps ["A:B"] to ["Alpha $\times$ Beta"]. *)
Theorem covariate_latexdict_AB :
  generate_covariate_latexdict [("A", "Alpha"); ("B", "Beta")] ["A"; "B"; "A:B"]
  = Raise (AssertionError (Variable_order "A:B" "A:B" "B:A"))
  /\ exists m,
       generate_covariate_latexdict [("B", "Beta"); ("A", "Alpha")] ["A"; "B"; "A:B"]
       = Return m
       /\ m !! "A:B" = Some "Alpha $\times$ Beta".
Proof.
  split; [by vm_compute|].
  eexists. split; [by vm_compute|]. by vm_compute.
Qed.

(** C3, as stated, fails: on that input the call does not return a mapping. *)
Lemma covariate_latexdict_AB_no_mapping :
  ~ exists m,
      generate_covariate_latexdict [("A", "Alpha"); ("B", "Beta")] ["A"; "B"; "A:B"]
      = Return m
      /\ m !! "A:B" = Some "Alpha $\times$ Beta".
Proof.
  intros (m & Hm & _). vm_compute in Hm. discriminate.
Qed.

(** C4, as the code has it: with the keys ordered A, B, whatever the display
    strings, the covariate ["B:A"] passes the order validation and is mapped
    to the display strings of B and of A, in that order; it is ["A:B"] that
    fails it, the correct order reported being ["B:A"]. *)
Theorem covariate_order_AB (alpha beta : string) :
  (exists m,
     generate_covariate_latexdict [("A", alpha); ("B", beta)] ["A"; "B"; "B:A"]
     = Return m
     /\ m !! "B:A" = Some (Str.join " $\times$ " [beta; alpha]))
  /\ generate_covariate_latexdict [("A", alpha); ("B", beta)] ["A"; "B"; "A:B"]
     = Raise (AssertionError (Variable_order "A:B" "A:B" "B:A")).
Proof.
  split; [|by vm_compute].
  eexists. split; [by vm_compute|]. by vm_compute.
Qed.

(** C4, as stated, fails: with the keys ordered A, B the covariate ["B:A"]
    raises nothing. *)
Lemma covariate_order_BA_accepted :
  exists m,
    generate_covariate_latexdict [("A", "Alpha"); ("B", "Beta")] ["A"; "B"; "B:A"]
    = Return m
    /\ m !! "B:A" = Some "Beta $\times$ Alpha".
Proof.
  eexists. split; [by vm_compute|]. by vm_compute.
Qed.

(** C5, as the code has it: a covariate list with a two-variable interaction
    whose variables are not in the list is never mapped; and when every
    covariate before that interaction passes its validation, what is raised
    is the failure for the missing lower-order terms, with the covariate and
    its two variables. *)
Theorem covariate_pair_missing latexdict cov_names cov_name x y :
  Str.split ":" cov_name = [x; y] ->
  cov_name ∈ cov_names -> x ∉ cov_names -> y ∉ cov_names ->
  (exists e, generate_covariate_latexdict latexdict cov_names = Raise e)
  /\ (forall before after,
        cov_names = before ++ cov_name :: after ->
        (forall c, c ∈ before ->
           validate latexdict cov_names c (Str.split ":" c) = Return ()) ->
        generate_covariate_latexdict latexdict cov_names
        = Raise (AssertionError (Missing_interactions cov_name {[x; y]}))).
Proof.
  intros Hsplit Hin Hx Hy.
  assert (forall m, covariate_step latexdict cov_names m cov_name
            = Raise (AssertionError (Missing_interactions cov_name {[x; y]})))
    as Hstep.
  { intros m. rewrite covariate_step_validate, Hsplit.
    by rewrite validate_pair_missing. }
  unfold generate_covariate_latexdict. split.
  - apply for_each_some_raise with cov_name; [done|]. intros m. by eexists.
  - intros before after Hlist Hbefore. rewrite Hlist at 2.
    apply for_each_first_raise; [|done].
    intros m c Hc. rewrite covariate_step_validate, Hbefore by done. by eexists.
Qed.

Lemma covariate_pair_missing_witness :
  Str.split ":" "A:B" = ["A"; "B"]
  /\ ("A:B" ∈ ["A:B"]) /\ ("A" ∉ ["A:B"]) /\ ("B" ∉ ["A:B"])
  /\ (exists e,
        generate_covariate_latexdict [("A", "Alpha"); ("B", "Beta")] ["A:B"] = Raise e)
  /\ (forall before after,
        ["A:B"] = before ++ "A:B" :: after ->
        (forall c, c ∈ before ->
           validate [("A", "Alpha"); ("B", "Beta")] ["A:B"] c (Str.split ":" c)
           = Return ()) ->
        generate_covariate_latexdict [("A", "Alpha"); ("B", "Beta")] ["A:B"]
        = Raise (AssertionError (Missing_interactions "A:B" {["A"; "B"]}))).
Proof.
  assert ("A:B" ∈ ["A:B"]) as Hin by listed.
  assert ("A" ∉ ["A:B"]) as HA by not_listed.
  assert ("B" ∉ ["A:B"]) as HB by not_listed.
  split_and!; [reflexivity|exact Hin|exact HA|exact HB|..];
    apply (covariate_pair_missing [("A", "Alpha"); ("B", "Beta")] ["A:B"] "A:B" "A" "B"
             eq_refl Hin HA HB).
Defined.

(** C5, as stated, fails: the interaction ["A:B"] has neither variable in
    the list, and the failure raised is the one of the covariate before it. *)
Lemma covariate_pair_missing_after_order_failure :
  ("A:B" ∈ ["P:Q"; "P"; "Q"; "A:B"])
  /\ ("A" ∉ ["P:Q"; "P"; "Q"; "A:B"]) /\ ("B" ∉ ["P:Q"; "P"; "Q"; "A:B"])
  /\ generate_covariate_latexdict [("P", "p"); ("Q", "q")] ["P:Q"; "P"; "Q"; "A:B"]
     = Raise (AssertionError (Variable_order "P:Q" "P:Q" "Q:P")).
Proof.
  split_and!; [listed|not_listed|not_listed|by vm_compute].
Qed.

End CovariateLatexdict.


(** ** [Capitalize] *)


Example Capitalize_ascii :
  Capitalize ascii_capitalize "hello World" = Return "Hello World"
  /\ Capitalize ascii_capitalize "" = Raise IndexError.
Proof. split; reflexivity. Qed.

(** ** [savefig] *)

Section Savefig.

Implicit Types (ax : Axes) (plt : pyplot) (t : artist) (filename figurepath : string).

(** With a title: it is hidden in the file without title, and visible again
    in the two other files and afterwards. *)
Lemma savefig_title t suptitle filename figurepath plt :
  savefig {| title := Some t; suptitle := suptitle |} filename figurepath plt
  = ({| visible := <[t := true]> (<[t := false]> (visible plt));
        saved := (((saved plt
          ++ [(figurepath +:+ clean_filename filename +:+ "_notitle.pdf",
               <[t := false]> (visible plt))])
          ++ [(figurepath +:+ clean_filename filename +:+ ".pdf",
               <[t := true]> (<[t := false]> (visible plt)))])
          ++ [(figurepath +:+ clean_filename filename +:+ ".png",
               <[t := true]> (<[t := false]> (visible plt)))]);
        shown := true;
        printed := printed plt
          ++ ["Saved to: " +:+ figurepath +:+ clean_filename filename +:+ ".pdf"] |},
     Return ()).
Proof. reflexivity. Qed.

(** C6, on the code: with no attribute [title] and a super-title, the second
    branch reads [ax.title], which raises; nothing is hidden and no file is
    written. *)
Theorem savefig_suptitle_raises t filename figurepath plt :
  savefig {| title := None; suptitle := Some t |} filename figurepath plt
  = (plt, Raise (AttributeError "title")).
Proof. reflexivity. Qed.

(** With neither attribute, the two files with title are written. *)
Lemma savefig_no_title filename figurepath plt :
  savefig {| title := None; suptitle := None |} filename figurepath plt
  = ({| visible := visible plt;
        saved := (saved plt
          ++ [(figurepath +:+ clean_filename filename +:+ ".pdf", visible plt)])
          ++ [(figurepath +:+ clean_filename filename +:+ ".png", visible plt)];
        shown := true;
        printed := printed plt
          ++ ["Saved to: " +:+ figurepath +:+ clean_filename filename +:+ ".pdf"] |},
     Return ()).
Proof. reflexivity. Qed.

End Savefig.

(** ** [savereg]: the pseudo-R2 block *)

Section SaveregFacts.

Context {V : Type}.

Implicit Types (sg : Stargazer V) (ms : list (fitted_model V))
  (model : fitted_model V) (notes : list string).

Lemma with_note_elem notes : pseudo_r2_note ∈ with_note notes.
Proof.
  unfold with_note. case_bool_decide as Hin.
  - apply elem_of_app. right. by left.
  - exact Hin.
Qed.

Lemma with_note_again notes : with_note (with_note notes) = with_note notes.
Proof.
  unfold with_note at 1. rewrite bool_decide_eq_false_2; [done|].
  intros Hnot. apply Hnot, with_note_elem.
Qed.

(** One round, on a model that has the attribute. *)
Lemma pseudo_r2_step_some i model v sg :
  prsquasecond model = Some v ->
  pseudo_r2_step (i, model) sg
  = ({| models := models sg;
        model_data := alter (fun d => <["r2" := v]> d) i (model_data sg);
        custom_notes := with_note (custom_notes sg) |},
     Return ()).
Proof.
  intros Hv. unfold pseudo_r2_step, getattr_prsquasecond. rewrite Hv.
  unfold with_note. simpl. unfold mbind, action_bind. simpl.
  by case_bool_decide.
Qed.

(** One round, on a model that has not: nothing is written. *)
Lemma pseudo_r2_step_none i model sg :
  prsquasecond model = None ->
  pseudo_r2_step (i, model) sg = (sg, Raise (AttributeError "prsquasecond")).
Proof.
  intros Hv. unfold pseudo_r2_step, getattr_prsquasecond. by rewrite Hv.
Qed.

(** The loop from position [k] on, when every model has the attribute. *)
Lemma pseudo_r2_loop ms : forall k sg,
  Forall (fun model => is_Some (prsquasecond model)) ms ->
  exists sg',
    for_loop pseudo_r2_step (zip (seq k (length ms)) ms) sg = (sg', Return ())
    /\ models sg' = models sg
    /\ custom_notes sg'
       = (if ms is [] then custom_notes sg else with_note (custom_notes sg))
    /\ (forall j, j < k -> model_data sg' !! j = model_data sg !! j)
    /\ (forall i model v,
          ms !! i = Some model -> prsquasecond model = Some v ->
          model_data sg' !! (k + i)
          = (fun d => <["r2" := v]> d) <$> model_data sg !! (k + i)).
Proof.
  induction ms as [|model ms IH]; intros k sg Hall.
  - exists sg. by split_and!.
  - apply Forall_cons in Hall as [[v Hv] Hall].
    set (sg1 := {| models := models sg;
                   model_data := alter (fun d => <["r2" := v]> d) k (model_data sg);
                   custom_notes := with_note (custom_notes sg) |}).
    destruct (IH (S k) sg1 Hall) as (sg' & Hloop & Hmodels & Hnotes & Hlow & Hhigh).
    exists sg'. split_and!.
    + change (zip (seq k (length (model :: ms))) (model :: ms))
        with ((k, model) :: zip (seq (S k) (length ms)) ms).
      by rewrite for_loop_cons, (pseudo_r2_step_some k model v sg Hv).
    + by rewrite Hmodels.
    + rewrite Hnotes. simpl. destruct ms; [done|apply with_note_again].
    + intros j Hj. rewrite Hlow by lia. simpl.
      apply list_lookup_alter_ne. lia.
    + intros [|i] model' v' Hi Hv'; simpl in Hi.
      * injection Hi as <-. replace v' with v by congruence.
        rewrite Nat.add_0_r, Hlow by lia. simpl. apply list_lookup_alter_eq.
      * replace (k + S i) with (S k + i) by lia.
        rewrite (Hhigh i model' v' Hi Hv'). simpl.
        f_equal. apply list_lookup_alter_ne. lia.
Qed.

Lemma existsb_hasattr ms :
  ms ≠ [] -> Forall (fun model => is_Some (prsquasecond model)) ms ->
  existsb hasattr_prsquasecond ms = true.
Proof.
  intros Hne Hall. destruct ms as [|model ms]; [done|].
  apply Forall_cons in Hall as [Hsome _]. simpl.
  unfold hasattr_prsquasecond at 1. by rewrite bool_decide_eq_true_2.
Qed.

(** When there is a model, every model has a pseudo-R2 and the table has
    one dictionary for each model, the block returns, the R2 of every model
    is overwritten with the pseudo-R2 of that model, and the footnote is
    appended to the notes once, unless it is among them already. *)
Theorem savereg_pseudo_r2_all sg :
  models sg ≠ [] ->
  Forall (fun model => is_Some (prsquasecond model)) (models sg) ->
  length (model_data sg) = length (models sg) ->
  exists sg',
    savereg_pseudo_r2 sg = (sg', Return ())
    /\ models sg' = models sg
    /\ (forall i model v,
          models sg !! i = Some model -> prsquasecond model = Some v ->
          exists d, model_data sg !! i = Some d
            /\ model_data sg' !! i = Some (<["r2" := v]> d))
    /\ custom_notes sg'
       = (if bool_decide (pseudo_r2_note ∈ custom_notes sg) then custom_notes sg
          else custom_notes sg ++ [pseudo_r2_note]).
Proof.
  intros Hne Hall Hlen.
  destruct (pseudo_r2_loop (models sg) 0 sg Hall)
    as (sg' & Hloop & Hmodels & Hnotes & _ & Hdata).
  exists sg'. split_and!.
  - unfold savereg_pseudo_r2, mbind, action_bind. simpl.
    by rewrite existsb_hasattr, Hlen.
  - done.
  - intros i model v Hi Hv.
    destruct (lookup_lt_is_Some_2 (model_data sg) i) as [d Hd].
    { rewrite Hlen. by eapply lookup_lt_Some. }
    exists d. split; [done|].
    specialize (Hdata i model v Hi Hv). simpl in Hdata. by rewrite Hdata, Hd.
  - rewrite Hnotes. destruct (models sg); [done|]. unfold with_note.
    repeat case_bool_decide; done.
Qed.

End SaveregFacts.

Lemma savereg_pseudo_r2_all_witness :
  models table_all ≠ []
  /\ Forall (fun model => is_Some (prsquasecond model)) (models table_all)
  /\ length (model_data table_all) = length (models table_all)
  /\ exists sg',
       savereg_pseudo_r2 table_all = (sg', Return ())
       /\ models sg' = models table_all
       /\ (forall i model v,
             models table_all !! i = Some model -> prsquasecond model = Some v ->
             exists d, model_data table_all !! i = Some d
               /\ model_data sg' !! i = Some (<["r2" := v]> d))
       /\ custom_notes sg'
          = (if bool_decide (pseudo_r2_note ∈ custom_notes table_all)
             then custom_notes table_all
             else custom_notes table_all ++ [pseudo_r2_note]).
Proof.
  assert (models table_all ≠ []) as Hne by discriminate.
  assert (Forall (fun model => is_Some (prsquasecond model)) (models table_all))
    as Hall by (repeat constructor; by eexists).
  assert (length (model_data table_all) = length (models table_all)) as Hlen
    by reflexivity.
  split_and!; [exact Hne|exact Hall|exact Hlen|].
  exact (savereg_pseudo_r2_all table_all Hne Hall Hlen).
Defined.

(** C7, on the code: the first model has a pseudo-R2 and the second has
    none.  The gate of line 148 lets the table in, the loop overwrites the
    R2 of the first model, appends the footnote, and raises at the second
    model, whose attribute line 150 reads without a guard: the R2 of the
    second model stays as it was. *)
Lemma savereg_pseudo_r2_mixed_raises :
  existsb hasattr_prsquasecond (models table_mixed) = true
  /\ savereg_pseudo_r2 table_mixed
     = ({| models := models table_mixed;
           model_data := [{["r2" := 3]}; ∅];
           custom_notes := [pseudo_r2_note] |},
        Raise (AttributeError "prsquasecond")).
Proof. split; reflexivity. Qed.

(** * Further properties *)

(** ** [generate_lower_order_interactions]: the terms, their number, their order *)

Section LowerOrderMore.

Implicit Types (vars sub : list string) (s v : string).

Lemma sublist_shorter sub vars :
  sub `sublist_of` vars -> length sub < length vars ->
  exists i, i < length vars /\ sub `sublist_of` delete i vars.
Proof.
  induction 1 as [|x sub vars Hsub IH|x sub vars Hsub IH]; simpl; intros Hlen.
  - lia.
  - destruct IH as (i & Hi & Hdel); [lia|].
    exists (S i). split; [lia|]. by constructor.
  - exists 0. split; [lia|done].
Qed.

Lemma sublist_same_length sub vars :
  sub `sublist_of` vars -> length sub = length vars -> sub = vars.
Proof.
  induction 1 as [|x sub vars Hsub IH|x sub vars Hsub IH]; simpl; intros Hlen.
  - done.
  - f_equal. apply IH. lia.
  - apply sublist_length in Hsub. lia.
Qed.

(** Every non-empty proper sub-list gives a term. *)
Lemma lower_order_interactions_complete vars sub :
  sub `sublist_of` vars -> 1 <= length sub < length vars ->
  Str.join ":" sub ∈ generate_lower_order_interactions vars.
Proof.
  remember (length vars) as n eqn:Hn. revert vars Hn sub.
  induction n as [n IH] using lt_wf_ind. intros vars -> sub Hsub [Hpos Hlt].
  destruct (sublist_shorter sub vars Hsub Hlt) as (i & Hi & Hdel).
  rewrite <- omit_delete in Hdel.
  pose proof (length_omit i vars Hi) as Hlo.
  apply elem_of_lower_order_interactions. exists i. split; [done|].
  apply elem_of_lower_order_terms.
  destruct (decide (length sub = length (omit i vars))) as [Heq|Hne].
  - left. rewrite (sublist_same_length _ _ Hdel Heq) in *. split; [|done].
    intros Hnil. rewrite Hnil in Hpos. simpl in Hpos. lia.
  - pose proof (sublist_length _ _ Hdel) as Hle.
    right. split; [lia|].
    apply (IH (length (omit i vars))); [lia|done|done|lia].
Qed.

(** X1: the strings returned by [generate_lower_order_interactions] are
    exactly the colon-joins of the non-empty proper sub-lists of the input
    (the variables kept in their order, at least one, not all). *)
Theorem lower_order_interactions_exactly vars s :
  s ∈ generate_lower_order_interactions vars
  <-> exists sub, sub `sublist_of` vars
        /\ 1 <= length sub < length vars
        /\ s = Str.join ":" sub.
Proof.
  split.
  - apply lower_order_interactions_sublist.
  - intros (sub & Hsub & Hlen & ->). by apply lower_order_interactions_complete.
Qed.

Lemma length_bind_const {A B : Type} (f : A -> list B) (l : list A) (c : nat) :
  (forall a, a ∈ l -> length (f a) = c) -> length (l ≫= f) = length l * c.
Proof.
  induction l as [|a l IH]; intros Hf; [done|].
  rewrite bind_cons, length_app, Hf by left. simpl.
  rewrite IH; [done|]. intros b Hb. apply Hf. by right.
Qed.

Lemma term_count_S n : 1 <= n -> term_count (S n) = S n * S (term_count n).
Proof. destruct n; [lia|done]. Qed.

Lemma length_lower_order_interactions vars :
  length (generate_lower_order_interactions vars) = term_count (length vars).
Proof.
  remember (length vars) as n eqn:Hn. revert vars Hn.
  induction n as [n IH] using lt_wf_ind. intros vars ->.
  rewrite generate_lower_order_interactions_eq.
  destruct (length vars) as [|[|m]] eqn:Hlen.
  - done.
  - destruct vars as [|x [|y vars]]; simpl in Hlen; try lia. done.
  - rewrite (length_bind_const _ _ (S (term_count (S m)))).
    + by rewrite length_seq, (term_count_S (S m)) by lia.
    + intros i Hi%elem_of_seq.
      pose proof (length_omit i vars ltac:(lia)) as Hlo. rewrite Hlen in Hlo.
      simpl in Hlo. unfold lower_order_terms.
      rewrite bool_decide_eq_true_2
        by (intros Hnil; rewrite Hnil in Hlo; simpl in Hlo; lia).
      rewrite length_app. cbn [length Nat.add]. f_equal.
      destruct m as [|m].
      * rewrite bool_decide_eq_false_2 by lia. done.
      * rewrite bool_decide_eq_true_2 by lia.
        rewrite <- Hlo. apply (IH (length (omit i vars))); [lia|done].
Qed.

(** X2: the number of strings returned depends on the number [n] of
    variables only: it is [term_count n], that is 0 for [n <= 1] and
    [n * (1 + term_count (n - 1))] from there on (2, 9, 40, 205, ...). *)
Theorem lower_order_interactions_count vars :
  length (generate_lower_order_interactions vars) = term_count (length vars).
Proof. apply length_lower_order_interactions. Qed.

(** X3: the result is empty exactly for the inputs of at most one
    variable. *)
Theorem lower_order_interactions_empty vars :
  generate_lower_order_interactions vars = [] <-> length vars <= 1.
Proof.
  rewrite <- length_zero_iff_nil, length_lower_order_interactions.
  destruct (length vars) as [|[|n]]; [simpl; lia|simpl; lia|].
  rewrite term_count_S by lia. split; lia.
Qed.

Lemma lower_order_terms_single vars i v :
  i < length vars -> 3 <= length vars -> v ∈ omit i vars ->
  v ∈ lower_order_terms generate_lower_order_interactions vars i.
Proof.
  intros Hi Hlen Hv. pose proof (length_omit i vars Hi) as Hlo.
  apply elem_of_lower_order_terms. right. split; [lia|].
  apply lower_order_interactions_single; [lia|done].
Qed.

(** X4: for three variables or more the result always has a string twice
    (the last variable, on its own, comes out of the first round and of the
    second), whatever the names. *)
Theorem lower_order_interactions_duplicates vars :
  3 <= length vars -> ~ NoDup (generate_lower_order_interactions vars).
Proof.
  intros Hlen Hnodup.
  destruct (lookup_lt_is_Some_2 vars (pred (length vars))) as [v Hv]; [lia|].
  assert (v ∈ omit 0 vars) as H0.
  { rewrite omit_delete. apply list_elem_of_lookup. exists (pred (pred (length vars))).
    rewrite list_lookup_delete_ge by lia. by replace (S (pred (pred (length vars))))
      with (pred (length vars)) by lia. }
  assert (v ∈ omit 1 vars) as H1.
  { rewrite omit_delete. apply list_elem_of_lookup. exists (pred (pred (length vars))).
    rewrite list_lookup_delete_ge by lia. by replace (S (pred (pred (length vars))))
      with (pred (length vars)) by lia. }
  apply lower_order_terms_single in H0; [|lia|done].
  apply lower_order_terms_single in H1; [|lia|done].
  rewrite generate_lower_order_interactions_eq in Hnodup.
  destruct (length vars) as [|[|n]] eqn:Hn; [lia|lia|].
  change (seq 0 (S (S n))) with (0 :: 1 :: seq 2 n) in Hnodup.
  rewrite !bind_cons in Hnodup.
  apply NoDup_app in Hnodup as (_ & Hdisjoint & _).
  apply (Hdisjoint v H0), elem_of_app. by left.
Qed.

Lemma lower_order_interactions_duplicates_witness :
  3 <= length ["A"; "B"; "C"]
  /\ ~ NoDup (generate_lower_order_interactions ["A"; "B"; "C"]).
Proof.
  split; [simpl; lia|].
  apply (lower_order_interactions_duplicates ["A"; "B"; "C"]). simpl. lia.
Defined.

(** X5: the first round comes first and is complete before the second:
    the result for [x :: vars], [vars] not empty, begins with the join of
    [vars] followed by the whole result for [vars]. *)
Theorem lower_order_interactions_first_round x vars :
  vars ≠ [] ->
  (Str.join ":" vars :: generate_lower_order_interactions vars)
    `prefix_of` generate_lower_order_interactions (x :: vars).
Proof.
  intros Hne.
  rewrite (generate_lower_order_interactions_eq (x :: vars)).
  change (seq 0 (length (x :: vars))) with (0 :: seq 1 (length vars)).
  rewrite bind_cons. apply prefix_app_r.
  unfold lower_order_terms. change (omit 0 (x :: vars)) with vars.
  rewrite bool_decide_eq_true_2 by done. simpl.
  case_bool_decide as Hlong; [done|].
  replace (generate_lower_order_interactions vars) with (@nil string); [done|].
  symmetry. apply length_zero_iff_nil.
  rewrite length_lower_order_interactions.
  destruct vars as [|y [|z vars]]; simpl in *; [done|done|lia].
Qed.

Lemma lower_order_interactions_first_round_witness :
  ["B"; "C"] ≠ []
  /\ (Str.join ":" ["B"; "C"] :: generate_lower_order_interactions ["B"; "C"])
       `prefix_of` generate_lower_order_interactions ("A" :: ["B"; "C"]).
Proof.
  split; [discriminate|].
  apply (lower_order_interactions_first_round "A" ["B"; "C"]). discriminate.
Defined.

End LowerOrderMore.

(** ** [generate_covariate_latexdict]: what is returned, what is raised *)

Section CovariateMore.

Local Ltac listed := apply list_elem_of_In; simpl; tauto.
Local Ltac not_listed := rewrite list_elem_of_In; simpl; intuition discriminate.

Implicit Types (latexdict : dict) (cov_names vars sub : list string)
  (cov_name c x y : string) (m : gmap string string).

Lemma covariate_step_returns latexdict cov_names m c m' :
  covariate_step latexdict cov_names m c = Return m' ->
  valid latexdict cov_names c /\ m' = <[c := display latexdict c]> m.
Proof.
  rewrite covariate_step_validate. unfold valid, display.
  destruct (validate latexdict cov_names c (Str.split ":" c)) as [[]|e];
    [|done].
  intros [= <-]. done.
Qed.

(** What the loop over a part [l] of the covariates leaves in the
    dictionary. *)
Lemma covariate_loop_returns latexdict cov_names l : forall m m',
  for_each (covariate_step latexdict cov_names) l m = Return m' ->
  Forall (valid latexdict cov_names) l
  /\ dom m' = dom m ∪ list_to_set l
  /\ (forall c, c ∈ l -> m' !! c = Some (display latexdict c))
  /\ (forall c, c ∉ l -> m' !! c = m !! c).
Proof.
  induction l as [|c0 l IH]; intros m m' Hloop; simpl in Hloop.
  - injection Hloop as <-. split_and!; [done| |by intros c ?%elem_of_nil|done].
    by rewrite list_to_set_nil, (right_id_L ∅ (∪)).
  - destruct (covariate_step latexdict cov_names m c0) as [m1|e] eqn:Hstep;
      [|done].
    simpl in Hloop.
    apply covariate_step_returns in Hstep as [Hvalid ->].
    destruct (IH _ _ Hloop) as (Hall & Hdom & Hin & Hout).
    split_and!.
    + by constructor.
    + rewrite Hdom, dom_insert_L, list_to_set_cons.
      apply set_eq. intros c. rewrite !elem_of_union. tauto.
    + intros c Hc. destruct (decide (c ∈ l)) as [Hl|Hl]; [by apply Hin|].
      apply elem_of_cons in Hc as [->|Hc]; [|done].
      by rewrite Hout, lookup_insert_eq.
    + intros c [Hne Hc]%not_elem_of_cons.
      by rewrite Hout, lookup_insert_ne.
Qed.

Lemma covariate_loop_valid latexdict cov_names l : forall m,
  Forall (valid latexdict cov_names) l ->
  exists m', for_each (covariate_step latexdict cov_names) l m = Return m'.
Proof.
  intros m Hall. apply for_each_returns. intros m0 c Hc.
  rewrite covariate_step_validate.
  rewrite Forall_forall in Hall. unfold valid in Hall. rewrite (Hall c Hc).
  by eexists.
Qed.

(** X6: when [generate_covariate_latexdict] returns, the keys of the
    result are the covariates of the list, and each covariate is mapped to
    the display strings of its variables joined by [" $\times$ "]. *)
Theorem covariate_latexdict_result latexdict cov_names m :
  generate_covariate_latexdict latexdict cov_names = Return m ->
  dom m = list_to_set cov_names
  /\ forall c, c ∈ cov_names -> m !! c = Some (display latexdict c).
Proof.
  intros Hret. apply covariate_loop_returns in Hret as (_ & Hdom & Hin & _).
  split; [|done]. by rewrite Hdom, dom_empty_L, (left_id_L ∅ (∪)).
Qed.

Lemma covariate_latexdict_result_witness :
  generate_covariate_latexdict [("B", "Beta"); ("A", "Alpha")] ["A"; "B"; "A:B"]
  = Return (<["A:B" := "Alpha $\times$ Beta"]>
              (<["B" := "Beta"]> (<["A" := "Alpha"]> ∅)))
  /\ dom (<["A:B" := "Alpha $\times$ Beta"]>
            (<["B" := "Beta"]> (<["A" := "Alpha"]> (∅ : gmap string string))))
     = list_to_set ["A"; "B"; "A:B"]
  /\ forall c, c ∈ ["A"; "B"; "A:B"] ->
       <["A:B" := "Alpha $\times$ Beta"]>
         (<["B" := "Beta"]> (<["A" := "Alpha"]> (∅ : gmap string string))) !! c
       = Some (display [("B", "Beta"); ("A", "Alpha")] c).
Proof.
  assert (generate_covariate_latexdict [("B", "Beta"); ("A", "Alpha")]
            ["A"; "B"; "A:B"]
          = Return (<["A:B" := "Alpha $\times$ Beta"]>
                      (<["B" := "Beta"]> (<["A" := "Alpha"]> ∅)))) as Hret
    by (by vm_compute).
  split; [exact Hret|].
  exact (covariate_latexdict_result _ _ _ Hret).
Defined.

(** X7: [generate_covariate_latexdict] returns exactly when every covariate
    of the list passes the two assertions; otherwise it raises. *)
Theorem covariate_latexdict_returns_iff latexdict cov_names :
  (exists m, generate_covariate_latexdict latexdict cov_names = Return m)
  <-> Forall (valid latexdict cov_names) cov_names.
Proof.
  split.
  - intros [m Hret]. by apply covariate_loop_returns in Hret as (Hall & _).
  - apply covariate_loop_valid.
Qed.

(** X8: the exception raised is the one of the first covariate, in the
    order of the list, that fails an assertion. *)
Theorem covariate_latexdict_first_failure latexdict before after c e :
  Forall (valid latexdict (before ++ c :: after)) before ->
  validate latexdict (before ++ c :: after) c (Str.split ":" c) = Raise e ->
  generate_covariate_latexdict latexdict (before ++ c :: after) = Raise e.
Proof.
  intros Hbefore Hc. unfold generate_covariate_latexdict.
  apply for_each_first_raise.
  - intros m c' Hc'. rewrite covariate_step_validate.
    rewrite Forall_forall in Hbefore. unfold valid in Hbefore.
    rewrite (Hbefore c' Hc'). by eexists.
  - intros m. by rewrite covariate_step_validate, Hc.
Qed.

Lemma covariate_latexdict_first_failure_witness :
  Forall (valid [("P", "p"); ("Q", "q")] (["P"; "Q"] ++ "P:Q" :: ["A:B"])) ["P"; "Q"]
  /\ validate [("P", "p"); ("Q", "q")] (["P"; "Q"] ++ "P:Q" :: ["A:B"]) "P:Q"
       (Str.split ":" "P:Q")
     = Raise (AssertionError (Variable_order "P:Q" "P:Q" "Q:P"))
  /\ generate_covariate_latexdict [("P", "p"); ("Q", "q")]
       (["P"; "Q"] ++ "P:Q" :: ["A:B"])
     = Raise (AssertionError (Variable_order "P:Q" "P:Q" "Q:P")).
Proof.
  assert (Forall (valid [("P", "p"); ("Q", "q")] (["P"; "Q"] ++ "P:Q" :: ["A:B"]))
            ["P"; "Q"]) as Hbefore by (repeat constructor).
  assert (validate [("P", "p"); ("Q", "q")] (["P"; "Q"] ++ "P:Q" :: ["A:B"]) "P:Q"
            (Str.split ":" "P:Q")
          = Raise (AssertionError (Variable_order "P:Q" "P:Q" "Q:P"))) as Hc
    by (by vm_compute).
  split_and!; [exact Hbefore|exact Hc|].
  exact (covariate_latexdict_first_failure _ ["P"; "Q"] ["A:B"] "P:Q" _ Hbefore Hc).
Defined.

Lemma sorted_fixed (key : string -> sort_key) vars :
  sorted key vars = vars <-> Sorted (key_ordered key) vars.
Proof.
  split.
  - intros <-. apply sorted_sorted.
  - induction 1 as [|x l Hl IH Hhd]; [done|].
    simpl. rewrite IH. destruct Hhd as [|y l Hxy]; [done|].
    simpl. unfold key_ordered in Hxy. by rewrite Hxy.
Qed.

Lemma lower_order_listed cov_names vars :
  list_to_set (generate_lower_order_interactions vars)
    ⊆@{gset string} list_to_set cov_names
  <-> forall sub, sub `sublist_of` vars -> 1 <= length sub < length vars ->
        Str.join ":" sub ∈ cov_names.
Proof.
  split.
  - intros Hsub sub Hsl Hlen.
    apply (elem_of_list_to_set (C := gset string)), Hsub, elem_of_list_to_set.
    by apply lower_order_interactions_complete.
  - intros Hall s Hs%elem_of_list_to_set.
    apply lower_order_interactions_sublist in Hs as (sub & Hsl & Hlen & ->).
    apply elem_of_list_to_set. by apply Hall.
Qed.

(** X9: the variables [vars] of a covariate pass the two assertions exactly
    when there is one variable only, or every colon-join of a non-empty
    proper sub-list of [vars] is in the covariate list and [vars] is in
    ascending order of the sort key, that is by descending position among
    the keys of [latexdict], the variables that are no key last. *)
Theorem validate_returns_iff latexdict cov_names cov_name vars :
  validate latexdict cov_names cov_name vars = Return ()
  <-> length vars <= 1
      \/ ((forall sub, sub `sublist_of` vars -> 1 <= length sub < length vars ->
             Str.join ":" sub ∈ cov_names)
          /\ Sorted (key_ordered (order_key latexdict)) vars).
Proof.
  unfold validate. rewrite <- lower_order_listed, <- sorted_fixed.
  repeat case_bool_decide; split; try done; try (intros [?|[? ?]]; try done; lia).
  - intros _. by right.
  - intros _. left. lia.
Qed.

Lemma index_Some_elem x (l : list string) i : index x l = Some i -> l !! i = Some x.
Proof.
  revert i. induction l as [|y l IH]; intros i; simpl; [done|].
  case_bool_decide as Hy; [by intros [= <-]; subst|].
  destruct (index x l) as [j|]; simpl; [|done].
  intros [= <-]. by apply IH.
Qed.

Lemma index_None x (l : list string) : index x l = None <-> x ∉ l.
Proof.
  induction l as [|y l IH]; simpl; [by split; [intros _ ?%elem_of_nil|]|].
  rewrite not_elem_of_cons. case_bool_decide as Hy.
  - split; [done|]. intros [Hne _]. by subst.
  - destruct (index x l); simpl; [|].
    + split; [done|]. intros [_ Hl]. by apply IH in Hl.
    + split; [|done]. intros _. split; [done|]. by apply IH.
Qed.

(** The check of a pair whose variables are listed comes down to the keys. *)
Lemma validate_pair_listed latexdict cov_names cov_name x y :
  x ∈ cov_names -> y ∈ cov_names ->
  validate latexdict cov_names cov_name [x; y]
  = if key_le (order_key latexdict x) (order_key latexdict y) then Return ()
    else Raise (AssertionError
                  (Variable_order cov_name (Str.join ":" [x; y]) (Str.join ":" [y; x]))).
Proof.
  intros Hx Hy. unfold validate.
  rewrite bool_decide_eq_true_2 by (simpl; lia).
  rewrite lower_order_interactions_pair.
  rewrite bool_decide_eq_true_2.
  - simpl sorted.
    destruct (key_le (order_key latexdict x) (order_key latexdict y)) eqn:Hle.
    + by rewrite bool_decide_eq_true_2.
    + rewrite bool_decide_eq_false_2; [done|].
      intros [= -> _]. apply key_le_strict in Hle. done.
  - intros s. rewrite !elem_of_list_to_set, !elem_of_cons, elem_of_nil.
    intros [->|[->|[]]]; done.
Qed.

(** X10: for two listed variables that are keys of [latexdict], [x] before
    [y], the pair in the order of the keys, [x:y], fails the order assertion
    with the correct order [y:x], and the pair [y:x] passes. *)
Theorem validate_pair_keys latexdict cov_names cov_name x y i j :
  x ∈ cov_names -> y ∈ cov_names ->
  index x (keys latexdict) = Some i -> index y (keys latexdict) = Some j ->
  i < j ->
  validate latexdict cov_names cov_name [x; y]
  = Raise (AssertionError
             (Variable_order cov_name (Str.join ":" [x; y]) (Str.join ":" [y; x])))
  /\ validate latexdict cov_names cov_name [y; x] = Return ().
Proof.
  intros Hx Hy Hi Hj Hlt. rewrite !validate_pair_listed by done.
  unfold order_key. rewrite Hi, Hj. simpl.
  rewrite (proj2 (Z.leb_gt _ _)) by lia.
  by rewrite (proj2 (Z.leb_le _ _)) by lia.
Qed.

Lemma validate_pair_keys_witness :
  ("A" ∈ ["A"; "B"; "A:B"]) /\ ("B" ∈ ["A"; "B"; "A:B"])
  /\ index "A" (keys [("A", "Alpha"); ("B", "Beta")]) = Some 0
  /\ index "B" (keys [("A", "Alpha"); ("B", "Beta")]) = Some 1
  /\ 0 < 1
  /\ validate [("A", "Alpha"); ("B", "Beta")] ["A"; "B"; "A:B"] "A:B" ["A"; "B"]
     = Raise (AssertionError
                (Variable_order "A:B" (Str.join ":" ["A"; "B"]) (Str.join ":" ["B"; "A"])))
  /\ validate [("A", "Alpha"); ("B", "Beta")] ["A"; "B"; "A:B"] "A:B" ["B"; "A"]
     = Return ().
Proof.
  assert ("A" ∈ ["A"; "B"; "A:B"]) as HA by listed.
  assert ("B" ∈ ["A"; "B"; "A:B"]) as HB by listed.
  assert (0 < 1) as Hlt by lia.
  split_and!; [exact HA|exact HB|reflexivity|reflexivity|exact Hlt|..];
    apply (validate_pair_keys [("A", "Alpha"); ("B", "Beta")] ["A"; "B"; "A:B"] "A:B"
             "A" "B" 0 1 HA HB eq_refl eq_refl Hlt).
Defined.

(** X11: a variable that is no key of [latexdict] sorts last: for listed
    variables [x], no key, and [y], a key, the pair [x:y] fails the order
    assertion with the correct order [y:x], and the pair [y:x] passes. *)
Theorem validate_pair_unknown latexdict cov_names cov_name x y :
  x ∈ cov_names -> y ∈ cov_names ->
  x ∉ keys latexdict -> y ∈ keys latexdict ->
  validate latexdict cov_names cov_name [x; y]
  = Raise (AssertionError
             (Variable_order cov_name (Str.join ":" [x; y]) (Str.join ":" [y; x])))
  /\ validate latexdict cov_names cov_name [y; x] = Return ().
Proof.
  intros Hx Hy Hnokey Hkey. rewrite !validate_pair_listed by done.
  unfold order_key. apply index_None in Hnokey. rewrite Hnokey.
  destruct (index y (keys latexdict)) as [j|] eqn:Hj; [done|].
  by apply index_None in Hj.
Qed.

Lemma validate_pair_unknown_witness :
  ("U" ∈ ["U"; "A"]) /\ ("A" ∈ ["U"; "A"])
  /\ ("U" ∉ keys [("A", "Alpha")]) /\ ("A" ∈ keys [("A", "Alpha")])
  /\ validate [("A", "Alpha")] ["U"; "A"] "U:A" ["U"; "A"]
     = Raise (AssertionError
                (Variable_order "U:A" (Str.join ":" ["U"; "A"]) (Str.join ":" ["A"; "U"])))
  /\ validate [("A", "Alpha")] ["U"; "A"] "U:A" ["A"; "U"] = Return ().
Proof.
  assert ("U" ∈ ["U"; "A"]) as HU by listed.
  assert ("A" ∈ ["U"; "A"]) as HA by listed.
  assert ("U" ∉ keys [("A", "Alpha")]) as Hno by not_listed.
  assert ("A" ∈ keys [("A", "Alpha")]) as Hkey by listed.
  split_and!; [exact HU|exact HA|exact Hno|exact Hkey|..];
    apply (validate_pair_unknown [("A", "Alpha")] ["U"; "A"] "U:A" "U" "A"
             HU HA Hno Hkey).
Defined.

Lemma get_default latexdict key default :
  key ∉ keys latexdict -> get latexdict key default = default.
Proof.
  induction latexdict as [|[k v] d IH]; simpl; [done|].
  intros [Hne Hd]%not_elem_of_cons.
  rewrite bool_decide_eq_false_2 by done. by apply IH.
Qed.

Lemma valid_plain latexdict cov_names c :
  Str.all_chars (fun a => negb (Ascii.eqb a ":")) c = true ->
  valid latexdict cov_names c /\ display latexdict c = get latexdict c c.
Proof.
  intros Hc. unfold valid, display. by rewrite split_field.
Qed.

(** X12: a list of covariates without colon is always mapped: the call
    returns, every covariate has the display string that [latexdict] gives
    it, and a covariate that is no key of [latexdict] has itself. *)
Theorem covariate_latexdict_plain latexdict cov_names :
  Forall (fun c => Str.all_chars (fun a => negb (Ascii.eqb a ":")) c = true)
    cov_names ->
  exists m,
    generate_covariate_latexdict latexdict cov_names = Return m
    /\ (forall c, c ∈ cov_names -> m !! c = Some (get latexdict c c))
    /\ (forall c, c ∈ cov_names -> c ∉ keys latexdict -> m !! c = Some c).
Proof.
  intros Hplain. rewrite Forall_forall in Hplain.
  destruct (covariate_loop_valid latexdict cov_names cov_names ∅) as [m Hm].
  { apply Forall_forall. intros c Hc. by apply valid_plain, Hplain. }
  exists m. split; [done|].
  apply covariate_loop_returns in Hm as (_ & _ & Hin & _).
  assert (forall c, c ∈ cov_names -> m !! c = Some (get latexdict c c)) as Hget.
  { intros c Hc. rewrite (Hin c Hc). f_equal. by apply valid_plain, Hplain. }
  split; [done|].
  intros c Hc Hnokey. by rewrite (Hget c Hc), get_default.
Qed.

Lemma covariate_latexdict_plain_witness :
  Forall (fun c => Str.all_chars (fun a => negb (Ascii.eqb a ":")) c = true)
    ["age"; "income"]
  /\ exists m,
       generate_covariate_latexdict [("age", "Age")] ["age"; "income"] = Return m
       /\ (forall c, c ∈ ["age"; "income"] -> m !! c = Some (get [("age", "Age")] c c))
       /\ (forall c, c ∈ ["age"; "income"] -> c ∉ keys [("age", "Age")] ->
             m !! c = Some c).
Proof.
  assert (Forall (fun c => Str.all_chars (fun a => negb (Ascii.eqb a ":")) c = true)
            ["age"; "income"]) as Hplain by (repeat constructor).
  split; [exact Hplain|].
  exact (covariate_latexdict_plain [("age", "Age")] ["age"; "income"] Hplain).
Defined.

End CovariateMore.

(** ** [clean_filename]: the names it returns *)

Section CleanFilenameMore.

Implicit Types (p q : ascii -> bool) (s t : string) (c : ascii).

Local Ltac by_cases_on c :=
  destruct c as [[] [] [] [] [] [] [] []]; vm_compute; intros; congruence.

Lemma deleted_lower c : is_deleted (Char.lower c) = is_deleted c.
Proof. by_cases_on c. Qed.

Lemma lower_space c : Ascii.eqb (Char.lower c) " " = Ascii.eqb c " ".
Proof. by_cases_on c. Qed.

Lemma word_not_dot c : Char.is_word c = true -> negb (Ascii.eqb c ".") = true.
Proof. by_cases_on c. Qed.

Lemma all_chars_lower_eq p s :
  Str.all_chars p (Str.lower s) = Str.all_chars (fun c => p (Char.lower c)) s.
Proof. induction s as [|c s IH]; simpl; [done|]. by rewrite IH. Qed.

Lemma all_chars_ext p q s :
  (forall c, p c = q c) -> Str.all_chars p s = Str.all_chars q s.
Proof. intros Hpq. induction s as [|c s IH]; simpl; [done|]. by rewrite Hpq, IH. Qed.

(** X13: for every input string, the name returned has word characters
    only (so no space, no slash and no dot), none of them an upper-case
    letter, and no two underscores in a row. *)
Theorem clean_filename_safe s :
  Str.all_chars Char.is_word (clean_filename s) = true
  /\ Str.all_chars
       (fun c => negb (Ascii.eqb c " ") && negb (Ascii.eqb c "/")
                 && negb (Ascii.eqb c "."))
       (clean_filename s) = true
  /\ Str.lower (clean_filename s) = clean_filename s
  /\ Str.repeated_underscore (clean_filename s) = false.
Proof.
  split_and!.
  - apply clean_filename_word.
  - eapply all_chars_weaken; [|apply clean_filename_word].
    intros c Hc.
    by rewrite (word_not_space c Hc), (word_not_slash c Hc), (word_not_dot c Hc).
  - apply lower_id, clean_filename_lower.
  - apply clean_filename_no_repeat.
Qed.

(** X14: among the strings of the code points U+0000..U+00FF, the names
    that [clean_filename] leaves as they are, are exactly the strings of
    word characters, without upper-case letter and without two underscores
    in a row. *)
Theorem clean_filename_fixed_iff s :
  clean_filename s = s
  <-> Str.all_chars Char.is_word s = true
      /\ Str.all_chars (fun c => Ascii.eqb (Char.lower c) c) s = true
      /\ Str.repeated_underscore s = false.
Proof.
  split.
  - intros <-. split_and!.
    + apply clean_filename_word.
    + apply clean_filename_lower.
    + apply clean_filename_no_repeat.
  - intros (Hword & Hlow & Hrep). by apply clean_filename_fixed.
Qed.

Lemma collapse_empty s :
  Str.re_sub_run Char.is_underscore "_" false s = "" <-> s = "".
Proof.
  destruct s as [|c s]; [done|]. simpl.
  destruct (Char.is_underscore c); [rewrite app_String|]; done.
Qed.

Lemma delete_empty cls b s :
  Str.re_sub_run cls "" b s = "" <-> Str.all_chars cls s = true.
Proof.
  revert b. induction s as [|c s IH]; intros b; simpl; [done|].
  destruct (cls c); [destruct b|]; simpl; rewrite ?app_empty; [apply IH..|done].
Qed.

Lemma nonword_replace_slash s :
  Str.all_chars Char.is_nonword (Str.replace "/" "_over_" s)
  = Str.all_chars (fun c => Char.is_nonword c && negb (Ascii.eqb c "/")) s.
Proof.
  induction s as [|c s IH]; simpl; [done|].
  destruct (Ascii.eqb c "/") eqn:Hc; simpl.
  - by rewrite andb_false_r.
  - by rewrite andb_true_r, IH.
Qed.

Lemma nonword_replace_space p s :
  Str.all_chars (fun c => Char.is_nonword c && p c) (Str.replace " " "_" s)
  = Str.all_chars (fun c => Char.is_nonword c && negb (Ascii.eqb c " ") && p c) s.
Proof.
  induction s as [|c s IH]; simpl; [done|].
  destruct (Ascii.eqb c " ") eqn:Hc; simpl.
  - by rewrite andb_false_r.
  - by rewrite andb_true_r, IH.
Qed.

(** X15: for a string of the code points U+0000..U+00FF, the name
    returned is empty exactly when every character of the input is deleted:
    none is a word character, a space or a slash.  So a name such as ["!?"]
    gives the empty file name. *)
Theorem clean_filename_empty_iff s :
  clean_filename s = "" <-> Str.all_chars is_deleted s = true.
Proof.
  unfold clean_filename, Str.re_sub_plus.
  rewrite collapse_empty, delete_empty, nonword_replace_slash,
    nonword_replace_space, all_chars_lower_eq.
  rewrite (all_chars_ext _ is_deleted); [done|].
  intros c. by rewrite <- (deleted_lower c).
Qed.

Lemma lower_lower s : Str.lower (Str.lower s) = Str.lower s.
Proof.
  induction s as [|c s IH]; simpl; [done|].
  rewrite IH. f_equal. apply Ascii.eqb_eq, lower_fixed.
Qed.

Lemma lower_replace_space s :
  Str.lower (Str.replace " " "_" s) = Str.replace " " "_" (Str.lower s).
Proof.
  induction s as [|c s IH]; simpl; [done|].
  rewrite lower_space. destruct (Ascii.eqb c " "); simpl.
  - rewrite !app_String, !app_empty. simpl. by rewrite IH.
  - by rewrite IH.
Qed.

Lemma replace_space_twice s :
  Str.replace " " "_" (Str.replace " " "_" s) = Str.replace " " "_" s.
Proof.
  induction s as [|c s IH]; simpl; [done|].
  destruct (Ascii.eqb c " ") eqn:Hc; simpl.
  - rewrite !app_String, !app_empty. simpl. by rewrite IH.
  - by rewrite Hc, IH.
Qed.

(** X16: among the strings of the code points U+0000..U+00FF, names that
    differ in the case of their letters only, or in spaces against
    underscores only, get the same file name. *)
Theorem clean_filename_collisions s :
  clean_filename (Str.lower s) = clean_filename s
  /\ clean_filename (Str.replace " " "_" s) = clean_filename s.
Proof.
  unfold clean_filename. split.
  - by rewrite lower_lower.
  - by rewrite lower_replace_space, replace_space_twice.
Qed.

End CleanFilenameMore.

(** ** [savefig]: the files written and the visibility of the title *)

Section SavefigMore.

Implicit Types (ax : Axes) (plt : pyplot) (t a : artist) (filename figurepath : string).

(** X17: with an attribute [title], [savefig] returns after writing three
    files, in this order: the PDF without title, in which the title is
    hidden, then the PDF and the PNG, in which it is visible.  The title is
    visible afterwards, also when it was hidden before the call, and the
    visibility of every other text is the same in the three files and
    afterwards as before. *)
Theorem savefig_title_files t sup filename figurepath plt :
  exists plt' hidden shown,
    savefig {| title := Some t; suptitle := sup |} filename figurepath plt
    = (plt', Return ())
    /\ saved plt'
       = saved plt
         ++ [(figurepath +:+ clean_filename filename +:+ "_notitle.pdf", hidden);
             (figurepath +:+ clean_filename filename +:+ ".pdf", shown);
             (figurepath +:+ clean_filename filename +:+ ".png", shown)]
    /\ hidden !! t = Some false
    /\ shown !! t = Some true
    /\ visible plt' = shown
    /\ forall a, a ≠ t ->
         hidden !! a = visible plt !! a /\ shown !! a = visible plt !! a.
Proof.
  eexists _, (<[t := false]> (visible plt)),
    (<[t := true]> (<[t := false]> (visible plt))).
  split_and!.
  - apply savefig_title.
  - simpl. by rewrite <- !app_assoc.
  - apply lookup_insert_eq.
  - apply lookup_insert_eq.
  - done.
  - intros a Ha. by rewrite !lookup_insert_ne.
Qed.

(** X18: with the calls of [matplotlib] and [print] taken to succeed,
    [savefig] raises in one case only, the object without [title] and with
    [suptitle], and then it has changed nothing; in every other case it
    returns, keeps the files saved before, ends with the PDF and the PNG
    with title, shows the plot and prints the path of the PDF. *)
Theorem savefig_outcome ax filename figurepath plt :
  (title ax = None /\ is_Some (suptitle ax)
   /\ savefig ax filename figurepath plt = (plt, Raise (AttributeError "title")))
  \/ (~ (title ax = None /\ is_Some (suptitle ax))
      /\ exists plt' before,
           savefig ax filename figurepath plt = (plt', Return ())
           /\ saved plt'
              = (saved plt ++ before)
                ++ [(figurepath +:+ clean_filename filename +:+ ".pdf", visible plt');
                    (figurepath +:+ clean_filename filename +:+ ".png", visible plt')]
           /\ length before = (if title ax is Some _ then 1 else 0)
           /\ shown plt' = true
           /\ printed plt'
              = printed plt
                ++ ["Saved to: " +:+ figurepath +:+ clean_filename filename +:+ ".pdf"]).
Proof.
  destruct ax as [[t|] [u|]].
  - right. split; [by intros [[=] _]|].
    eexists _, [_]. split; [apply savefig_title|].
    split_and!; [|done..]. simpl. by rewrite <- !app_assoc.
  - right. split; [by intros [[=] _]|].
    eexists _, [_]. split; [apply savefig_title|].
    split_and!; [|done..]. simpl. by rewrite <- !app_assoc.
  - left. split_and!; [done|by eexists|done].
  - right. split; [by intros [_ [? [=]]]|].
    eexists _, []. split; [apply savefig_no_title|].
    split_and!; [|done..]. simpl. by rewrite app_nil_r, <- !app_assoc.
Qed.

End SavefigMore.

(** ** [savereg]: the tabular part *)

Section TabularPart.

Implicit Types (sep s t before after latex : string) (c : ascii).

Lemma str_app_assoc s t u : (s +:+ t) +:+ u = s +:+ (t +:+ u).
Proof.
  induction s as [|c s IH]; [done|]. by rewrite !app_String, IH.
Qed.

Lemma str_app_empty_r s : s +:+ "" = s.
Proof. induction s as [|c s IH]; [done|]. by rewrite app_String, IH. Qed.

Lemma startswith_app sep t : Text.startswith sep (sep +:+ t) = true.
Proof.
  induction sep as [|c sep IH]; [done|].
  rewrite app_String. simpl. by rewrite Ascii.eqb_refl.
Qed.

Lemma startswith_inv sep s :
  Text.startswith sep s = true ->
  s = sep +:+ Text.drop (String.length sep) s.
Proof.
  revert s. induction sep as [|c sep IH]; intros s; [done|].
  destruct s as [|c' s]; simpl; [done|].
  rewrite andb_true_iff, Ascii.eqb_eq. intros [-> Hs].
  rewrite app_String. f_equal. by apply IH.
Qed.

Lemma split_first_Some sep s before after :
  Text.split_first sep s = Some (before, after) -> Text.first_split sep s before after.
Proof.
  revert before after. induction s as [|c s IH]; intros before after; simpl.
  - destruct (Text.startswith sep "") eqn:Hsw; [|done].
    intros [= <- <-]. split; [by apply startswith_inv|]. simpl. lia.
  - destruct (Text.startswith sep (String c s)) eqn:Hsw.
    + intros [= <- <-]. split; [by apply startswith_inv|]. simpl. lia.
    + destruct (Text.split_first sep s) as [[b a]|] eqn:Hs; [|done].
      intros [= <- <-]. destruct (IH b a eq_refl) as [Heq Hmin].
      split; [by rewrite app_String, <- Heq|].
      intros [|c' before'] after' Heq'.
      * rewrite app_empty in Heq'. rewrite Heq', startswith_app in Hsw. done.
      * rewrite app_String in Heq'. injection Heq' as <- Heq'.
        simpl. apply Hmin in Heq'. lia.
Qed.

Lemma split_first_None sep s :
  Text.split_first sep s = None -> ~ Text.occurs sep s.
Proof.
  induction s as [|c s IH]; simpl.
  - destruct (Text.startswith sep "") eqn:Hsw; [done|]. intros _ (b & a & Heq).
    destruct b; [|done]. rewrite app_empty in Heq.
    by rewrite Heq, startswith_app in Hsw.
  - destruct (Text.startswith sep (String c s)) eqn:Hsw; [done|].
    destruct (Text.split_first sep s) as [[b a]|] eqn:Hs; [done|].
    intros _ (before & after & Heq). destruct before as [|c' before].
    + rewrite app_empty in Heq. by rewrite Heq, startswith_app in Hsw.
    + rewrite app_String in Heq. injection Heq as <- Heq.
      apply IH; [done|]. by exists before, after.
Qed.

Lemma first_split_unique sep s b1 a1 b2 a2 :
  Text.first_split sep s b1 a1 -> Text.first_split sep s b2 a2 ->
  b1 = b2 /\ a1 = a2.
Proof.
  intros [Heq1 Hmin1] [Heq2 Hmin2].
  pose proof (Hmin1 _ _ Heq2) as Hle1. pose proof (Hmin2 _ _ Heq1) as Hle2.
  assert (String.length b1 = String.length b2) as Hlen by lia.
  clear Hmin1 Hmin2 Hle1 Hle2. subst s. revert b2 Hlen Heq2.
  induction b1 as [|c b1 IH]; intros [|c' b2] Hlen Heq; simpl in Hlen; try done.
  - rewrite !app_empty in Heq. split; [done|].
    revert Heq. generalize a1 a2. clear.
    induction sep as [|c sep IH]; intros a1 a2; [done|].
    rewrite !app_String. intros [= Heq]. by apply IH.
  - rewrite !app_String in Heq. injection Heq as <- Heq.
    destruct (IH b2 ltac:(lia) Heq) as [-> ->]. done.
Qed.

(** The partition at the first occurrence, and what it is when there is none. *)
Lemma partition_first sep s before after :
  Text.first_split sep s before after -> Text.partition sep s = (before, sep, after).
Proof.
  intros Hfirst. unfold Text.partition.
  destruct (Text.split_first sep s) as [[b a]|] eqn:Hs.
  - apply split_first_Some in Hs.
    by destruct (first_split_unique _ _ _ _ _ _ Hs Hfirst) as [-> ->].
  - apply split_first_None in Hs. destruct Hs, Hfirst as [Heq _]. by eexists _, _.
Qed.

Lemma partition_absent sep s :
  ~ Text.occurs sep s -> Text.partition sep s = (s, "", "").
Proof.
  intros Habsent. unfold Text.partition.
  destruct (Text.split_first sep s) as [[b a]|] eqn:Hs; [|done].
  apply split_first_Some in Hs as [Heq _]. destruct Habsent. by eexists _, _.
Qed.

Lemma occurs_first sep s :
  Text.occurs sep s -> exists before after, Text.first_split sep s before after.
Proof.
  intros Hocc. destruct (Text.split_first sep s) as [[b a]|] eqn:Hs.
  - exists b, a. by apply split_first_Some.
  - by apply split_first_None in Hs.
Qed.

(** The three parts of a partition make up the string. *)
Lemma partition_parts sep s :
  (Text.partition sep s).1.1 +:+ (Text.partition sep s).1.2 +:+ (Text.partition sep s).2
  = s.
Proof.
  unfold Text.partition.
  destruct (Text.split_first sep s) as [[b a]|] eqn:Hs; simpl.
  - by apply split_first_Some in Hs as [<- _].
  - by rewrite app_empty, str_app_empty_r.
Qed.

(** The end marker does not begin inside the begin marker: its first
    occurrence in a text that starts with the begin marker lies after it. *)
Lemma split_first_after_begin rest :
  Text.split_first end_tabular (begin_tabular +:+ rest)
  = match Text.split_first end_tabular rest with
    | Some (before, after) => Some (begin_tabular +:+ before, after)
    | None => None
    end.
Proof.
  unfold begin_tabular. rewrite !app_String, app_empty. simpl.
  destruct (Text.split_first end_tabular rest) as [[b a]|]; [|done].
  by rewrite !app_String, app_empty.
Qed.

Lemma tabular_part_begin pre rest latex :
  Text.first_split begin_tabular latex pre rest ->
  tabular_part latex
  = begin_tabular
    +:+ (Text.partition end_tabular rest).1.1 +:+ (Text.partition end_tabular rest).1.2.
Proof.
  intros Hfirst. unfold tabular_part.
  rewrite (partition_first _ _ _ _ Hfirst). simpl.
  unfold Text.partition. rewrite split_first_after_begin.
  destruct (Text.split_first end_tabular rest) as [[b a]|]; simpl.
  - by rewrite str_app_assoc.
  - by rewrite !str_app_empty_r.
Qed.

(** X19: the text written to the tabular file is a part of the text
    written to the full file: the full text is the tabular part with
    something before it and something after it. *)
Theorem tabular_part_infix latex :
  exists before after, latex = before +:+ tabular_part latex +:+ after.
Proof.
  unfold tabular_part.
  set (p := Text.partition begin_tabular latex).
  set (q := Text.partition end_tabular (p.1.2 +:+ p.2)).
  exists p.1.1, q.2.
  rewrite str_app_assoc. unfold q. rewrite partition_parts.
  unfold p. by rewrite partition_parts.
Qed.

(** X20: the tabular part is empty exactly when the rendered table has no
    [\begin{tabular}]: the tabular file is then written empty. *)
Theorem tabular_part_empty_iff latex :
  tabular_part latex = "" <-> ~ Text.occurs begin_tabular latex.
Proof.
  split.
  - intros Hempty Hocc. apply occurs_first in Hocc as (pre & rest & Hfirst).
    by rewrite (tabular_part_begin _ _ _ Hfirst) in Hempty.
  - intros Habsent. unfold tabular_part. by rewrite (partition_absent _ _ Habsent).
Qed.

(** X21: with [\begin{tabular}] first after [pre] and, in what follows it,
    [\end{tabular}] first after [body], the tabular part is
    [\begin{tabular}], [body], [\end{tabular}]: it starts at the first begin
    marker and stops at the first end marker after it. *)
Theorem tabular_part_first_env latex pre rest body post :
  Text.first_split begin_tabular latex pre rest ->
  Text.first_split end_tabular rest body post ->
  tabular_part latex = begin_tabular +:+ body +:+ end_tabular.
Proof.
  intros Hbegin Hend. rewrite (tabular_part_begin _ _ _ Hbegin).
  by rewrite (partition_first _ _ _ _ Hend).
Qed.

Lemma tabular_part_first_env_witness :
  Text.first_split begin_tabular
    "\centering\begin{tabular}{lc} a & b \\ \end{tabular}\end{table}"
    "\centering" "{lc} a & b \\ \end{tabular}\end{table}"
  /\ Text.first_split end_tabular "{lc} a & b \\ \end{tabular}\end{table}"
       "{lc} a & b \\ " "\end{table}"
  /\ tabular_part "\centering\begin{tabular}{lc} a & b \\ \end{tabular}\end{table}"
     = begin_tabular +:+ "{lc} a & b \\ " +:+ end_tabular.
Proof.
  assert (Text.first_split begin_tabular
            "\centering\begin{tabular}{lc} a & b \\ \end{tabular}\end{table}"
            "\centering" "{lc} a & b \\ \end{tabular}\end{table}") as Hbegin
    by (by apply split_first_Some).
  assert (Text.first_split end_tabular "{lc} a & b \\ \end{tabular}\end{table}"
            "{lc} a & b \\ " "\end{table}") as Hend
    by (by apply split_first_Some).
  split_and!; [exact Hbegin|exact Hend|].
  exact (tabular_part_first_env _ _ _ _ _ Hbegin Hend).
Defined.

(** X22: with [\begin{tabular}] first after [pre] and no [\end{tabular}] in
    what follows it, the tabular part runs from the begin marker to the end
    of the text; an end marker before the begin marker does not count. *)
Theorem tabular_part_unclosed latex pre rest :
  Text.first_split begin_tabular latex pre rest ->
  ~ Text.occurs end_tabular rest ->
  tabular_part latex = begin_tabular +:+ rest.
Proof.
  intros Hbegin Hend. rewrite (tabular_part_begin _ _ _ Hbegin).
  rewrite (partition_absent _ _ Hend). simpl. by rewrite str_app_empty_r.
Qed.

Lemma tabular_part_unclosed_witness :
  Text.first_split begin_tabular "\end{tabular}\begin{tabular}{lc} a & b"
    "\end{tabular}" "{lc} a & b"
  /\ ~ Text.occurs end_tabular "{lc} a & b"
  /\ tabular_part "\end{tabular}\begin{tabular}{lc} a & b"
     = begin_tabular +:+ "{lc} a & b".
Proof.
  assert (Text.first_split begin_tabular "\end{tabular}\begin{tabular}{lc} a & b"
            "\end{tabular}" "{lc} a & b") as Hbegin
    by (by apply split_first_Some).
  assert (~ Text.occurs end_tabular "{lc} a & b") as Hend
    by (by apply split_first_None).
  split_and!; [exact Hbegin|exact Hend|].
  exact (tabular_part_unclosed _ _ _ Hbegin Hend).
Defined.

End TabularPart.

(** ** [savereg]: the replacements in the rendered table *)

Section ReplaceFacts.

Implicit Types (old new s t latex : string) (c : ascii).

Lemma str_length_app s t :
  String.length (s +:+ t) = String.length s + String.length t.
Proof.
  induction s as [|c s IH]; [done|]. rewrite app_String. simpl. by rewrite IH.
Qed.

Lemma drop_app old t : Text.drop (String.length old) (old +:+ t) = t.
Proof. induction old as [|c old IH]; [done|]. by rewrite app_String. Qed.

Lemma startswith_shorter old s :
  old ≠ "" -> Text.startswith old s = true ->
  String.length (Text.drop (String.length old) s) < String.length s.
Proof.
  intros Hold Hsw. rewrite (startswith_inv old s Hsw) at 2.
  rewrite str_length_app. destruct old; [done|simpl; lia].
Qed.

(** More steps than the text has characters change nothing: the bound is
    never what ends the replacement. *)
Lemma replace_upto_enough old new steps steps' s :
  old ≠ "" ->
  String.length s < steps -> String.length s < steps' ->
  Text.replace_upto steps old new s = Text.replace_upto steps' old new s.
Proof.
  intros Hold. revert steps' s.
  induction steps as [|steps IH]; intros [|steps'] s Hs Hs'; try lia.
  simpl. destruct (Text.startswith old s) eqn:Hsw.
  - pose proof (startswith_shorter old s Hold Hsw). f_equal. apply IH; lia.
  - destruct s as [|c s]; [done|]. simpl in Hs, Hs'. f_equal. apply IH; lia.
Qed.

Lemma replace_here old new t :
  old ≠ "" -> Text.replace old new (old +:+ t) = new +:+ Text.replace old new t.
Proof.
  intros Hold. unfold Text.replace at 1. simpl.
  rewrite startswith_app, drop_app. f_equal.
  apply replace_upto_enough; [done| |lia].
  rewrite str_length_app. destruct old; [done|simpl; lia].
Qed.

Lemma replace_skip old new c s :
  Text.startswith old (String c s) = false ->
  Text.replace old new (String c s) = String c (Text.replace old new s).
Proof. intros Hsw. unfold Text.replace at 1. simpl in *. by rewrite Hsw. Qed.

Lemma replace_empty old new : old ≠ "" -> Text.replace old new "" = "".
Proof. intros Hold. by destruct old. Qed.

Lemma replace_same old s : old ≠ "" -> Text.replace old old s = s.
Proof.
  intros Hold. remember (String.length s) as n eqn:Hn. revert s Hn.
  induction n as [n IH] using lt_wf_ind. intros s ->.
  destruct (Text.startswith old s) eqn:Hsw.
  - pose proof (startswith_shorter old s Hold Hsw) as Hlen.
    pose proof (startswith_inv old s Hsw) as Hs.
    remember (Text.drop (String.length old) s) as t eqn:Ht. clear Ht Hsw.
    subst s. rewrite replace_here by done. f_equal. by eapply IH.
  - destruct s as [|c s]; [by apply replace_empty|].
    rewrite replace_skip by done. f_equal. eapply IH; [|done]. simpl. lia.
Qed.

Lemma replace_absent old new s :
  old ≠ "" -> ~ Text.occurs old s -> Text.replace old new s = s.
Proof.
  intros Hold. induction s as [|c s IH]; intros Habsent.
  - by apply replace_empty.
  - rewrite replace_skip.
    + f_equal. apply IH. intros (b & a & ->). apply Habsent.
      exists (String c b), a. by rewrite app_String.
    + destruct (Text.startswith old (String c s)) eqn:Hsw; [|done].
      destruct Habsent. exists "", (Text.drop (String.length old) (String c s)).
      rewrite app_empty. by apply startswith_inv.
Qed.

Lemma cline_old_not_empty n : cline_old n ≠ "".
Proof. unfold cline_old. by rewrite app_String. Qed.

(** X23: without width adjustment, a rendered table in which neither
    ["nan"] nor the rule [\cline{n-(n+1)}] for the number [n] of models
    occurs is written as it is. *)
Theorem postprocess_unchanged num_models latex :
  ~ Text.occurs "nan" latex ->
  ~ Text.occurs (cline_old num_models) latex ->
  postprocess num_models false latex = latex.
Proof.
  intros Hnan Hcline. unfold postprocess.
  rewrite (replace_absent "nan" "" latex) by done.
  by rewrite replace_absent by (done || apply cline_old_not_empty).
Qed.

Lemma postprocess_unchanged_witness :
  ~ Text.occurs "nan" "\begin{tabular}\cline{2-4}\end{tabular}"
  /\ ~ Text.occurs (cline_old 3) "\begin{tabular}\cline{2-4}\end{tabular}"
  /\ postprocess 3 false "\begin{tabular}\cline{2-4}\end{tabular}"
     = "\begin{tabular}\cline{2-4}\end{tabular}".
Proof.
  assert (~ Text.occurs "nan" "\begin{tabular}\cline{2-4}\end{tabular}") as Hnan
    by (by apply split_first_None).
  assert (~ Text.occurs (cline_old 3) "\begin{tabular}\cline{2-4}\end{tabular}")
    as Hcline by (by apply split_first_None).
  split_and!; [exact Hnan|exact Hcline|].
  exact (postprocess_unchanged 3 _ Hnan Hcline).
Defined.

(** X24: for a table of two models the replacement of the rule changes
    nothing, since the rule sought, [\cline{2-3}], is the rule put instead:
    the result is the one of the other replacements alone. *)
Theorem postprocess_two_models adjustwidth latex :
  cline_old 2 = cline_new 2
  /\ postprocess 2 adjustwidth latex
     = if adjustwidth then
         Text.replace "\end{tabular}" "\end{tabular}\end{adjustbox}"
           (Text.replace "\begin{tabular}"
              "\begin{adjustbox}{width=\linewidth}\begin{tabular}"
              (Text.replace "nan" "" latex))
       else Text.replace "nan" "" latex.
Proof.
  split; [done|]. unfold postprocess.
  change (cline_new 2) with (cline_old 2).
  by rewrite replace_same by apply cline_old_not_empty.
Qed.

End ReplaceFacts.

(** ** [savereg]: what the pseudo-R2 block changes *)

Section PseudoR2More.

Context {V : Type}.

Implicit Types (sg : Stargazer V) (ms front back : list (fitted_model V))
  (model : fitted_model V) (entries : list (nat * fitted_model V)).

Lemma for_loop_app {A S : Type} (body : A -> action S ()) (l1 l2 : list A) (s : S) :
  for_loop body (l1 ++ l2) s
  = match for_loop body l1 s with
    | (s', Return _) => for_loop body l2 s'
    | (s', Raise e) => (s', Raise e)
    end.
Proof.
  revert s. induction l1 as [|a l1 IH]; intros s; [done|].
  rewrite <- app_comm_cons, !for_loop_cons.
  destruct (body a s) as [s' [[]|e]]; [apply IH|done].
Qed.

Lemma kept_refl touched sg : kept touched sg sg.
Proof. by split_and!. Qed.

Lemma kept_trans touched sg1 sg2 sg3 :
  kept touched sg1 sg2 -> kept touched sg2 sg3 -> kept touched sg1 sg3.
Proof.
  intros (Hm1 & Hl1 & Hn1 & Hi1 & Hk1) (Hm2 & Hl2 & Hn2 & Hi2 & Hk2).
  split_and!.
  - by rewrite Hm2.
  - by rewrite Hl2.
  - by etrans.
  - intros i Hi. by rewrite Hi2, Hi1.
  - intros i key Hkey. by rewrite Hk2, Hk1.
Qed.

Lemma pseudo_r2_step_kept (touched : nat -> Prop) i model sg :
  touched i -> kept touched sg (pseudo_r2_step (i, model) sg).1.
Proof.
  intros Hi. destruct (prsquasecond model) as [v|] eqn:Hv.
  - rewrite (pseudo_r2_step_some i model v sg Hv). simpl. split_and!.
    + done.
    + apply length_alter.
    + unfold with_note. case_bool_decide; [by apply prefix_app_r|done].
    + intros j Hj. apply list_lookup_alter_ne. by intros ->.
    + intros j key Hkey. cbn [model_data].
      destruct (decide (i = j)) as [->|Hne].
      * rewrite list_lookup_alter_eq.
        destruct (model_data sg !! j) as [d|]; [|done]. simpl.
        by apply lookup_insert_ne.
      * by rewrite list_lookup_alter_ne.
  - rewrite (pseudo_r2_step_none i model sg Hv). apply kept_refl.
Qed.

Lemma pseudo_r2_loop_kept (touched : nat -> Prop) entries : forall sg,
  Forall (fun entry => touched entry.1) entries ->
  kept touched sg (for_loop pseudo_r2_step entries sg).1.
Proof.
  induction entries as [|[i model] entries IH]; intros sg Hall.
  - apply kept_refl.
  - apply Forall_cons in Hall as [Hi Hall]. rewrite for_loop_cons.
    pose proof (pseudo_r2_step_kept touched i model sg Hi) as Hstep.
    destruct (pseudo_r2_step (i, model) sg) as [sg1 [[]|e]]; simpl in Hstep.
    + eapply kept_trans; [done|by apply IH].
    + done.
Qed.

Lemma zip_seq_range k n ms :
  Forall (fun entry : nat * fitted_model V => k <= entry.1 < k + length ms)
    (zip (seq k n) ms).
Proof.
  revert k n. induction ms as [|model ms IH]; intros k [|n]; simpl; try done.
  constructor; [simpl; lia|].
  eapply Forall_impl; [apply (IH (S k) n)|]. intros [i m]. simpl. lia.
Qed.

(** X25: whether the block returns or raises, it leaves the models as
    they are, keeps the number of dictionaries and every note there was,
    changes no dictionary beyond the number of models, and changes no entry
    of a dictionary other than ['r2']. *)
Theorem savereg_pseudo_r2_keeps sg :
  models (savereg_pseudo_r2 sg).1 = models sg
  /\ length (model_data (savereg_pseudo_r2 sg).1) = length (model_data sg)
  /\ custom_notes sg `prefix_of` custom_notes (savereg_pseudo_r2 sg).1
  /\ (forall i, length (models sg) <= i ->
        model_data (savereg_pseudo_r2 sg).1 !! i = model_data sg !! i)
  /\ (forall i key, key ≠ "r2" ->
        model_data (savereg_pseudo_r2 sg).1 !! i ≫= (fun d => d !! key)
        = model_data sg !! i ≫= (fun d => d !! key)).
Proof.
  assert (kept (fun i => i < length (models sg)) sg (savereg_pseudo_r2 sg).1)
    as (Hm & Hl & Hn & Hi & Hk).
  { unfold savereg_pseudo_r2, mbind, action_bind. simpl.
    destruct (existsb hasattr_prsquasecond (models sg)); [|apply kept_refl].
    apply pseudo_r2_loop_kept.
    eapply Forall_impl; [apply zip_seq_range|]. intros [i m]. simpl. lia. }
  split_and!; [done..| |done]. intros i Hge. apply Hi. lia.
Qed.

(** X26: when no model has a pseudo-R2, the block changes nothing: no R2
    is overwritten and no footnote is appended. *)
Theorem savereg_pseudo_r2_none sg :
  Forall (fun model => prsquasecond model = None) (models sg) ->
  savereg_pseudo_r2 sg = (sg, Return ()).
Proof.
  intros Hnone. unfold savereg_pseudo_r2, mbind, action_bind. simpl.
  replace (existsb hasattr_prsquasecond (models sg)) with false; [done|].
  symmetry. induction Hnone as [|model ms Hmodel Hms IH]; [done|]. simpl.
  unfold hasattr_prsquasecond at 1. rewrite Hmodel.
  by rewrite bool_decide_eq_false_2 by (by intros [? [=]]).
Qed.

Lemma existsb_hasattr_elem ms model :
  model ∈ ms -> is_Some (prsquasecond model) ->
  existsb hasattr_prsquasecond ms = true.
Proof.
  intros Hin Hsome. apply existsb_exists. exists model. split.
  - by apply list_elem_of_In.
  - unfold hasattr_prsquasecond. by apply bool_decide_eq_true_2.
Qed.

(** X27: when some model has a pseudo-R2 and the first model without one
    comes after [front], the block raises [AttributeError] at that model:
    the R2 of the models of [front] has been overwritten, the dictionaries
    from that model on are as they were, and the footnote has been added
    unless [front] is empty. *)
Theorem savereg_pseudo_r2_stops sg front model back other :
  models sg = front ++ model :: back ->
  Forall (fun model => is_Some (prsquasecond model)) front ->
  prsquasecond model = None ->
  other ∈ models sg -> is_Some (prsquasecond other) ->
  length (model_data sg) = length (models sg) ->
  exists sg',
    savereg_pseudo_r2 sg = (sg', Raise (AttributeError "prsquasecond"))
    /\ (forall i m v,
          front !! i = Some m -> prsquasecond m = Some v ->
          model_data sg' !! i = (fun d => <["r2" := v]> d) <$> model_data sg !! i)
    /\ (forall i, length front <= i -> model_data sg' !! i = model_data sg !! i)
    /\ custom_notes sg'
       = (if front is [] then custom_notes sg else with_note (custom_notes sg)).
Proof.
  intros Hmodels Hfront Hnone Hother Hsome Hlen.
  destruct (pseudo_r2_loop front 0 sg Hfront)
    as (sg' & Hloop & _ & Hnotes & _ & Hdata).
  pose proof (pseudo_r2_loop_kept (fun i => i < length front)
                (zip (seq 0 (length front)) front) sg) as Hkept.
  rewrite Hloop in Hkept. simpl in Hkept.
  destruct Hkept as (_ & _ & _ & Hrest & _).
  { eapply Forall_impl; [apply zip_seq_range|]. intros [i m]. simpl. lia. }
  exists sg'. split_and!.
  - unfold savereg_pseudo_r2, mbind, action_bind. simpl.
    rewrite (existsb_hasattr_elem _ other Hother Hsome), Hlen, Hmodels.
    rewrite length_app. simpl length.
    rewrite seq_app, zip_with_app by (by rewrite length_seq).
    rewrite for_loop_app, Hloop. simpl seq. simpl zip_with.
    by rewrite for_loop_cons, (pseudo_r2_step_none _ model sg' Hnone).
  - intros i m v Hi Hv. apply (Hdata i m v Hi Hv).
  - intros i Hi. apply Hrest. lia.
  - done.
Qed.

End PseudoR2More.

Lemma savereg_pseudo_r2_none_witness :
  Forall (fun model => prsquasecond model = None)
    (models {| models := [ {| prsquasecond := @None nat |} ];
               model_data := [∅]; custom_notes := ["note"] |})
  /\ savereg_pseudo_r2
       {| models := [ {| prsquasecond := @None nat |} ];
          model_data := [∅]; custom_notes := ["note"] |}
     = ({| models := [ {| prsquasecond := @None nat |} ];
           model_data := [∅]; custom_notes := ["note"] |}, Return ()).
Proof.
  assert (Forall (fun model => prsquasecond model = None)
            (models {| models := [ {| prsquasecond := @None nat |} ];
                       model_data := [∅]; custom_notes := ["note"] |})) as Hnone
    by (repeat constructor).
  split; [exact Hnone|].
  exact (savereg_pseudo_r2_none _ Hnone).
Defined.

Lemma savereg_pseudo_r2_stops_witness :
  models table_mixed = [ {| prsquasecond := Some 3 |} ] ++ {| prsquasecond := None |} :: []
  /\ Forall (fun model => is_Some (prsquasecond model)) [ {| prsquasecond := Some 3 |} ]
  /\ prsquasecond {| prsquasecond := @None nat |} = None
  /\ ({| prsquasecond := Some 3 |} ∈ models table_mixed)
  /\ is_Some (prsquasecond {| prsquasecond := Some 3 |})
  /\ length (model_data table_mixed) = length (models table_mixed)
  /\ exists sg',
       savereg_pseudo_r2 table_mixed = (sg', Raise (AttributeError "prsquasecond"))
       /\ (forall i m v,
             [ {| prsquasecond := Some 3 |} ] !! i = Some m -> prsquasecond m = Some v ->
             model_data sg' !! i
             = (fun d => <["r2" := v]> d) <$> model_data table_mixed !! i)
       /\ (forall i, length [ {| prsquasecond := Some 3 |} ] <= i ->
             model_data sg' !! i = model_data table_mixed !! i)
       /\ custom_notes sg'
          = (if [ {| prsquasecond := Some 3 |} ] is [] then custom_notes table_mixed
             else with_note (custom_notes table_mixed)).
Proof.
  assert (Forall (fun model => is_Some (prsquasecond model))
            [ {| prsquasecond := Some 3 |} ]) as Hfront
    by (repeat constructor; by eexists).
  assert ({| prsquasecond := Some 3 |} ∈ models table_mixed) as Hother by (by left).
  assert (is_Some (prsquasecond {| prsquasecond := Some 3 |})) as Hsome
    by (by eexists).
  split_and!; [reflexivity|exact Hfront|reflexivity|exact Hother|exact Hsome
              |reflexivity|].
  exact (savereg_pseudo_r2_stops table_mixed [ {| prsquasecond := Some 3 |} ]
           {| prsquasecond := None |} [] {| prsquasecond := Some 3 |}
           eq_refl Hfront eq_refl Hother Hsome eq_refl).
Defined.

(** ** [savereg]: the files written *)

Section SaveregWholeFacts.

Context {V : Type}.

Variable render_latex : Table V -> string.

Implicit Types (w : World V) (filename tablepath : string) (latexdict : dict)
  (adjustwidth : width_policy) (debug : bool) (m : gmap string string)
  (sg : Stargazer V).

Lemma savereg_raises_validation filename tablepath latexdict adjustwidth debug w e :
  generate_covariate_latexdict latexdict (table_cov_names (table w)) = Raise e ->
  savereg render_latex filename tablepath latexdict adjustwidth debug w
  = ({| table := hide_statistics (table w); files := files w;
        console := console w |}, Raise e).
Proof.
  intros Hraise. unfold savereg, mbind, action_bind. simpl. by rewrite Hraise.
Qed.

Lemma savereg_raises_block filename tablepath latexdict adjustwidth debug w m sg e :
  generate_covariate_latexdict latexdict (table_cov_names (table w)) = Return m ->
  savereg_pseudo_r2 (stargazer (table w)) = (sg, Raise e) ->
  savereg render_latex filename tablepath latexdict adjustwidth debug w
  = ({| table := with_stargazer sg (rename_covariates m (hide_statistics (table w)));
        files := files w; console := console w |}, Raise e).
Proof.
  intros Hret Hblock. unfold savereg, mbind, action_bind. simpl. rewrite Hret. simpl.
  unfold on_stargazer. simpl. by rewrite Hblock.
Qed.

Lemma savereg_returns filename tablepath latexdict adjustwidth debug w m sg :
  generate_covariate_latexdict latexdict (table_cov_names (table w)) = Return m ->
  savereg_pseudo_r2 (stargazer (table w)) = (sg, Return ()) ->
  let t := with_stargazer sg (rename_covariates m (hide_statistics (table w))) in
  let latex :=
    postprocess (num_models (table w)) (adjusts adjustwidth w) (render_latex t) in
  savereg render_latex filename tablepath latexdict adjustwidth debug w
  = ({| table := t;
        files :=
          <[tablepath +:+ clean_filename filename +:+ "_tabular.tex"
            := tabular_part latex]>
            (<[tablepath +:+ clean_filename filename +:+ ".tex" := latex]> (files w));
        console :=
          if debug then
            console w
            ++ ["Saved as: " +:+ tablepath +:+ clean_filename filename +:+ ".tex"]
          else console w |}, Return ()).
Proof.
  intros Hret Hblock. unfold savereg, mbind, action_bind. simpl. rewrite Hret. simpl.
  unfold on_stargazer. simpl. rewrite Hblock. simpl.
  by destruct debug, adjustwidth.
Qed.

Lemma str_app_inv_l s t u : s +:+ t = s +:+ u -> t = u.
Proof.
  induction s as [|c s IH]; [done|]. rewrite !app_String. intros [= Heq]. by apply IH.
Qed.

(** X28: when the validation of the covariates raises, [savereg] raises
    the same exception before the table is rendered: no file is written and
    nothing is printed, but the statistics of the table have been switched
    off already. *)
Theorem savereg_validation_failure filename tablepath latexdict adjustwidth debug w e :
  generate_covariate_latexdict latexdict (table_cov_names (table w)) = Raise e ->
  exists w',
    savereg render_latex filename tablepath latexdict adjustwidth debug w
    = (w', Raise e)
    /\ files w' = files w
    /\ console w' = console w
    /\ table w' = hide_statistics (table w).
Proof.
  intros Hraise. eexists. split; [by apply savereg_raises_validation|done].
Qed.

(** X29: when the validation and the pseudo-R2 block return, [savereg]
    returns, and afterwards the file [.tex] holds the rendered table after
    the replacements, the file [_tabular.tex] holds its tabular part, and
    every other file is as before; one line is printed when [debug] is set,
    none otherwise. *)
Theorem savereg_files filename tablepath latexdict adjustwidth debug w m sg :
  generate_covariate_latexdict latexdict (table_cov_names (table w)) = Return m ->
  savereg_pseudo_r2 (stargazer (table w)) = (sg, Return ()) ->
  exists w',
    savereg render_latex filename tablepath latexdict adjustwidth debug w
    = (w', Return ())
    /\ table w' = with_stargazer sg (rename_covariates m (hide_statistics (table w)))
    /\ files w' !! (tablepath +:+ clean_filename filename +:+ ".tex")
       = Some (postprocess (num_models (table w)) (adjusts adjustwidth w)
                 (render_latex (table w')))
    /\ files w' !! (tablepath +:+ clean_filename filename +:+ "_tabular.tex")
       = Some (tabular_part
                 (postprocess (num_models (table w)) (adjusts adjustwidth w)
                    (render_latex (table w'))))
    /\ (forall path,
          path ≠ tablepath +:+ clean_filename filename +:+ ".tex" ->
          path ≠ tablepath +:+ clean_filename filename +:+ "_tabular.tex" ->
          files w' !! path = files w !! path)
    /\ console w'
       = (if debug then
            console w
            ++ ["Saved as: " +:+ tablepath +:+ clean_filename filename +:+ ".tex"]
          else console w).
Proof.
  intros Hret Hblock. eexists. split; [by eapply savereg_returns|].
  simpl. split_and!; [done| |apply lookup_insert_eq| |done].
  - rewrite lookup_insert_ne; [apply lookup_insert_eq|].
    intros Heq. by do 2 apply str_app_inv_l in Heq.
  - intros path Hne1 Hne2. by rewrite !lookup_insert_ne.
Qed.

(** X30: whenever [savereg] raises, from the validation of the covariates
    or from the pseudo-R2 block, no file has been written and nothing has
    been printed. *)
Theorem savereg_raise_writes_nothing
    filename tablepath latexdict adjustwidth debug w w' e :
  savereg render_latex filename tablepath latexdict adjustwidth debug w = (w', Raise e) ->
  files w' = files w /\ console w' = console w.
Proof.
  destruct (generate_covariate_latexdict latexdict (table_cov_names (table w)))
    as [m|e'] eqn:Hgen.
  - destruct (savereg_pseudo_r2 (stargazer (table w))) as [sg [[]|e']] eqn:Hblock.
    + pose proof (savereg_returns filename tablepath latexdict adjustwidth debug
                    w m sg Hgen Hblock) as Hrun. simpl in Hrun.
      rewrite Hrun. done.
    + rewrite (savereg_raises_block _ _ _ _ _ _ _ _ _ Hgen Hblock).
      by intros [= <- _].
  - rewrite (savereg_raises_validation _ _ _ _ _ _ _ Hgen). by intros [= <- _].
Qed.

End SaveregWholeFacts.

Lemma savereg_validation_failure_witness :
  generate_covariate_latexdict [("A", "Alpha"); ("B", "Beta")]
    (table_cov_names (table (world_of ["A"; "B"; "A:B"])))
  = Raise (AssertionError (Variable_order "A:B" "A:B" "B:A"))
  /\ exists w',
       savereg render_fixed "Table 1" "out/" [("A", "Alpha"); ("B", "Beta")] auto false
         (world_of ["A"; "B"; "A:B"])
       = (w', Raise (AssertionError (Variable_order "A:B" "A:B" "B:A")))
       /\ files w' = files (world_of ["A"; "B"; "A:B"])
       /\ console w' = console (world_of ["A"; "B"; "A:B"])
       /\ table w' = hide_statistics (table (world_of ["A"; "B"; "A:B"])).
Proof.
  assert (generate_covariate_latexdict [("A", "Alpha"); ("B", "Beta")]
            (table_cov_names (table (world_of ["A"; "B"; "A:B"])))
          = Raise (AssertionError (Variable_order "A:B" "A:B" "B:A"))) as Hraise
    by (by vm_compute).
  split; [exact Hraise|].
  exact (savereg_validation_failure render_fixed "Table 1" "out/" _ auto false _ _
           Hraise).
Defined.

Lemma savereg_files_witness :
  generate_covariate_latexdict [("A", "Alpha")]
    (table_cov_names (table (world_of ["A"; "B"])))
  = Return (<["B" := "B"]> (<["A" := "Alpha"]> ∅))
  /\ savereg_pseudo_r2 (stargazer (table (world_of ["A"; "B"])))
     = ({| models := models table_all;
           model_data := [{["r2" := 3]}; {["r2" := 5]}];
           custom_notes := [pseudo_r2_note] |}, Return ())
  /\ exists w',
       savereg render_fixed "Table 1" "out/" [("A", "Alpha")] auto true
         (world_of ["A"; "B"])
       = (w', Return ())
       /\ table w'
          = with_stargazer
              {| models := models table_all;
                 model_data := [{["r2" := 3]}; {["r2" := 5]}];
                 custom_notes := [pseudo_r2_note] |}
              (rename_covariates (<["B" := "B"]> (<["A" := "Alpha"]> ∅))
                 (hide_statistics (table (world_of ["A"; "B"]))))
       /\ files w' !! ("out/" +:+ clean_filename "Table 1" +:+ ".tex")
          = Some (postprocess (num_models (table (world_of ["A"; "B"])))
                    (adjusts auto (world_of ["A"; "B"])) (render_fixed (table w')))
       /\ files w' !! ("out/" +:+ clean_filename "Table 1" +:+ "_tabular.tex")
          = Some (tabular_part
                    (postprocess (num_models (table (world_of ["A"; "B"])))
                       (adjusts auto (world_of ["A"; "B"])) (render_fixed (table w'))))
       /\ (forall path,
             path ≠ "out/" +:+ clean_filename "Table 1" +:+ ".tex" ->
             path ≠ "out/" +:+ clean_filename "Table 1" +:+ "_tabular.tex" ->
             files w' !! path = files (world_of ["A"; "B"]) !! path)
       /\ console w'
          = (if true then
               console (world_of ["A"; "B"])
               ++ ["Saved as: " +:+ "out/" +:+ clean_filename "Table 1" +:+ ".tex"]
             else console (world_of ["A"; "B"])).
Proof.
  assert (generate_covariate_latexdict [("A", "Alpha")]
            (table_cov_names (table (world_of ["A"; "B"])))
          = Return (<["B" := "B"]> (<["A" := "Alpha"]> ∅))) as Hret
    by (by vm_compute).
  assert (savereg_pseudo_r2 (stargazer (table (world_of ["A"; "B"])))
          = ({| models := models table_all;
                model_data := [{["r2" := 3]}; {["r2" := 5]}];
                custom_notes := [pseudo_r2_note] |}, Return ())) as Hblock
    by reflexivity.
  split_and!; [exact Hret|exact Hblock|].
  exact (savereg_files render_fixed "Table 1" "out/" _ auto true _ _ _ Hret Hblock).
Defined.

Lemma savereg_raise_writes_nothing_witness :
  savereg render_fixed "Table 1" "out/" [("A", "Alpha"); ("B", "Beta")] auto false
    (world_of ["A"; "B"; "A:B"])
  = ({| table := hide_statistics (table (world_of ["A"; "B"; "A:B"]));
        files := ∅; console := [] |},
     Raise (AssertionError (Variable_order "A:B" "A:B" "B:A")))
  /\ files {| table := hide_statistics (table (world_of ["A"; "B"; "A:B"]));
              files := ∅; console := [] |}
     = files (world_of ["A"; "B"; "A:B"])
  /\ console {| table := hide_statistics (table (world_of ["A"; "B"; "A:B"]));
                files := ∅; console := [] |}
     = console (world_of ["A"; "B"; "A:B"]).
Proof.
  assert (savereg render_fixed "Table 1" "out/" [("A", "Alpha"); ("B", "Beta")] auto
            false (world_of ["A"; "B"; "A:B"])
          = ({| table := hide_statistics (table (world_of ["A"; "B"; "A:B"]));
                files := ∅; console := [] |},
             Raise (AssertionError (Variable_order "A:B" "A:B" "B:A")))) as Hrun
    by (by vm_compute).
  split; [exact Hrun|].
  exact (savereg_raise_writes_nothing render_fixed _ _ _ _ _ _ _ _ Hrun).
Defined.
